(** * Embedding utilities: vector math, similarity search, deduplication,
      text chunking and the embedding cache

    A shallow embedding of [embedding-utils.py].  NumPy's [float64] is the
    kernel's binary64 ([PrimFloat]), a one-dimensional array is a [list float],
    a two-dimensional array is the list of its rows, a Python [int] is a [Z],
    a Python [str] is a [string] (code points below 256) and a raised
    exception is the [Raise] branch of [result].  Sums run from the left.
    [np.argsort] is the insertion sort that NumPy's default kind runs on an
    array of at most 17 elements, which keeps equal values in index order; a
    longer array NumPy partitions first, so there the model gives the
    program's ascending order of values but not its order among equal
    values: the order of results with equal scores is stated only for at
    most 17 candidates. *)

From Stdlib Require Import Floats ZArith List Lia Bool String Ascii.
From Stdlib Require Import Sorting.Sorted.
Import ListNotations.

Set Implicit Arguments.

(** ** Exceptions and results *)

Inductive exn : Type :=
| ValueError          (* NumPy shape mismatch, [range] step 0, empty separator *)
| IndexError
| AxisError
| StopIteration
| NotImplementedError.

Inductive result (A : Type) : Type :=
| Ok (a : A)
| Raise (e : exn).

Arguments Ok {A} a.
Arguments Raise {A} e.

Definition bind {A B : Type} (r : result A) (k : A -> result B) : result B :=
  match r with
  | Ok a => k a
  | Raise e => Raise e
  end.

Notation "x <- r ;; k" := (bind r (fun x => k))
  (at level 61, r at next level, right associativity).

Definition len {A : Type} (l : list A) : Z := Z.of_nat (List.length l).

(** ** Vector math *)

Module VectorMath.

Local Open Scope float_scope.

(** [np.dot] on two one-dimensional arrays of one length; the products are
    summed from the left. *)
Definition dot_aligned (a b : list float) : float :=
  fold_left (fun acc p => acc + fst p * snd p) (combine a b) 0.

(** [np.dot(a, b)] for one-dimensional [a] and [b]: the shapes must agree. *)
Definition np_dot (a b : list float) : result float :=
  if Nat.eqb (List.length a) (List.length b) then Ok (dot_aligned a b)
  else Raise ValueError.

(** [np.linalg.norm(a)] for a one-dimensional array. *)
Definition norm (a : list float) : float :=
  sqrt (dot_aligned a a).

(** [a - b] with NumPy broadcasting: equal lengths subtract pointwise, an
    operand of length one is stretched over the other, anything else does not
    broadcast. *)
Definition np_sub (a b : list float) : result (list float) :=
  if Nat.eqb (List.length a) (List.length b)
  then Ok (map (fun p => fst p - snd p) (combine a b))
  else match a, b with
       | [x], _ => Ok (map (fun y => x - y) b)
       | _, [y] => Ok (map (fun x => x - y) a)
       | _, _ => Raise ValueError
       end.

(** [a / s] for an array and a scalar. *)
Definition scale_div (a : list float) (s : float) : list float :=
  map (fun x => x / s) a.

Definition cosine_similarity (a b : list float) : result float :=
  d <- np_dot a b ;;
  Ok (d / (norm a * norm b)).

(** [np.dot(matrix, vector)]: every row has the vector's length. *)
Definition mat_vec (m : list (list float)) (v : list float) : result (list float) :=
  if forallb (fun row => Nat.eqb (List.length row) (List.length v)) m
  then Ok (map (fun row => dot_aligned row v) m)
  else Raise ValueError.

Definition cosine_similarity_matrix (embeddings : list (list float))
    (query : list float) : result (list float) :=
  let embeddings_norm := map (fun row => scale_div row (norm row)) embeddings in
  let query_norm := scale_div query (norm query) in
  mat_vec embeddings_norm query_norm.

Definition euclidean_distance (a b : list float) : result float :=
  d <- np_sub a b ;;
  Ok (norm d).

Definition dot_product (a b : list float) : result float :=
  np_dot a b.

End VectorMath.

(** ** Similarity search *)

Module Search.

Local Open Scope float_scope.

Record SearchResult : Type := mkSearchResult {
  index : Z;
  score : float;
  text : option string;
  metadata : option (list (string * string))
}.

(** The order NumPy sorts floats by: [a < b], with every NaN after every
    number. *)
Definition np_less (a b : float) : bool :=
  (a <? b) || (is_nan b && negb (is_nan a)).

(** [v[i]] for an index that is in range. *)
Definition item (v : list float) (i : nat) : float := nth i v nan.

(** One step of the insertion sort [np.argsort] runs on short arrays: index
    [i] moves left past every index whose value is greater.  The sorted prefix
    is kept last-element-first, so the walk starts at its head. *)
Fixpoint insert_index (v : list float) (i : nat) (prefix_rev : list nat) : list nat :=
  match prefix_rev with
  | [] => [i]
  | j :: rest =>
      if np_less (item v i) (item v j) then j :: insert_index v i rest
      else i :: prefix_rev
  end.

Definition sorted_prefix_rev (v : list float) (indices : list nat) : list nat :=
  fold_left (fun acc i => insert_index v i acc) indices [].


(** [np.argsort(v)]: the indices of [v] in ascending order of value.  For an
    array of at most [SMALL_QUICKSORT + 1] elements this is NumPy's own run.
    A longer array is partitioned around pivots before the insertion sort
    finishes each part: the values come out in the same ascending order, but
    equal values may come out in another order of index than here. *)
Definition argsort (v : list float) : list nat :=
  rev (sorted_prefix_rev v (seq 0 (List.length v))).

(** [l[:k]] for a Python [int] [k]: a negative [k] counts from the end. *)
Definition slice_to {A : Type} (l : list A) (k : Z) : list A :=
  if (k <? 0)%Z then firstn (Z.to_nat (Z.max 0 (len l + k))) l
  else firstn (Z.to_nat k) l.

(** [texts[idx] if texts else None]: [None] and the empty list are falsy. *)
Definition text_at (texts : option (list string)) (idx : nat) : result (option string) :=
  match texts with
  | None | Some [] => Ok None
  | Some l =>
      match nth_error l idx with
      | Some t => Ok (Some t)
      | None => Raise IndexError
      end
  end.

(** The loop over [top_indices]. *)
Fixpoint collect (similarities : list float) (texts : option (list string))
    (threshold : float) (top_indices : list nat) : result (list SearchResult) :=
  match top_indices with
  | [] => Ok []
  | idx :: rest =>
      let score := item similarities idx in
      if score <? threshold then collect similarities texts threshold rest
      else
        t <- text_at texts idx ;;
        results <- collect similarities texts threshold rest ;;
        Ok (mkSearchResult (Z.of_nat idx) score t None :: results)
  end.

Definition search_similar (query_embedding : list float)
    (embeddings : list (list float)) (texts : option (list string))
    (top_k : Z) (threshold : float) : result (list SearchResult) :=
  similarities <- VectorMath.cosine_similarity_matrix embeddings query_embedding ;;
  let top_indices := slice_to (rev (argsort similarities)) top_k in
  collect similarities texts threshold top_indices.

(** The indices the loop of [search_similar] keeps: those of the first [n]
    of the descending order whose score is not below the threshold. *)
Definition selected (sims : list float) (thr : float) (n : nat) : list nat :=
  filter (fun i => negb (item sims i <? thr)) (firstn n (rev (argsort sims))).

(** [np_less] read on the specification of binary64. *)
Definition sf_nan (x : spec_float) : bool := negb (SFeqb x x).

Definition sf_less (x y : spec_float) : bool :=
  SFltb x y || (sf_nan y && negb (sf_nan x)).

(** The order of [argsort(v)[::-1]] on indices: the value does not go up, and
    among values that sort alike the index goes down. *)
Definition index_order (v : list float) (a b : nat) : Prop :=
  np_less (item v a) (item v b) = false /\
  (np_less (item v b) (item v a) = false -> (b < a)%nat).



End Search.

(** ** Deduplication *)

Module Dedup.

Local Open Scope float_scope.

(** The inner loop: is row [i] within [threshold] of a kept row?  The walk
    stops at the first kept row that is. *)
Fixpoint is_duplicate (embeddings : list (list float)) (threshold : float)
    (i : nat) (unique_indices : list nat) : result bool :=
  match unique_indices with
  | [] => Ok false
  | j :: rest =>
      sim <- VectorMath.cosine_similarity (nth i embeddings []) (nth j embeddings []) ;;
      if threshold <=? sim then Ok true
      else is_duplicate embeddings threshold i rest
  end.

(** The outer loop over [range(n)], threading [unique_indices]. *)
Fixpoint dedup_loop (embeddings : list (list float)) (threshold : float)
    (range : list nat) (unique_indices : list nat) : result (list nat) :=
  match range with
  | [] => Ok unique_indices
  | i :: rest =>
      dup <- is_duplicate embeddings threshold i unique_indices ;;
      dedup_loop embeddings threshold rest
        (if dup then unique_indices else unique_indices ++ [i])
  end.

Definition deduplicate_by_similarity (embeddings : list (list float))
    (threshold : float) : result (list nat) :=
  let n := List.length embeddings in
  dedup_loop embeddings threshold (seq 0 n) [].

(** What holds of [unique_indices] when the rows below [k] have been seen. *)
Definition kept_invariant (E : list (list float)) (thr : float) (k : nat)
    (kept : list nat) : Prop :=
  StronglySorted lt kept /\
  Forall (fun j => (j < k)%nat) kept /\
  (forall i j, In i kept -> In j kept -> (j < i)%nat ->
     exists sim,
       VectorMath.cosine_similarity (nth i E []) (nth j E []) = Ok sim /\
       (thr <=? sim) = false) /\
  (forall i, (i < k)%nat -> ~ In i kept ->
     exists j sim,
       In j kept /\ (j < i)%nat /\
       VectorMath.cosine_similarity (nth i E []) (nth j E []) = Ok sim /\
       (thr <=? sim) = true).

(** The rows of a two-dimensional array have one length. *)
Definition uniform (embeddings : list (list float)) : Prop :=
  forall i j, (i < List.length embeddings)%nat -> (j < List.length embeddings)%nat ->
    List.length (nth i embeddings []) = List.length (nth j embeddings []).

End Dedup.

(** ** Python strings *)

Module PyStr.

Local Open Scope string_scope.

Definition str_len (s : string) : Z := Z.of_nat (String.length s).

(** [s.startswith(p)]. *)
Fixpoint starts_with (p s : string) : bool :=
  match p, s with
  | EmptyString, _ => true
  | String a p', String b s' => Ascii.eqb a b && starts_with p' s'
  | String _ _, EmptyString => false
  end.

(** The scan of [str.split(sep)] for a non-empty [sep]: [skip] counts the
    characters of a matched separator still to be passed, [current] is the
    piece being read. *)
Fixpoint split_scan (sep s : string) (skip : nat) (current : string) : list string :=
  match s with
  | EmptyString => [current]
  | String c s' =>
      match skip with
      | S k => split_scan sep s' k current
      | O =>
          if starts_with sep s
          then current :: split_scan sep s' (String.length sep - 1) EmptyString
          else split_scan sep s' 0 (current ++ String c EmptyString)
      end
  end.

(** [s.split(sep)]: an empty separator is a [ValueError]. *)
Definition split (s sep : string) : result (list string) :=
  match sep with
  | EmptyString => Raise ValueError
  | _ => Ok (split_scan sep s 0 EmptyString)
  end.

(** [sep.join(parts)]. *)
Definition join (sep : string) (parts : list string) : string :=
  String.concat sep parts.

(** A slice bound brought into [0 .. len]: a negative bound counts from the
    end. *)
Definition clamp (n i : Z) : Z :=
  if (i <? 0)%Z then Z.max 0 (n + i) else Z.min i n.

(** [s[start:stop]]. *)
Definition slice (s : string) (start stop : Z) : string :=
  let n := str_len s in
  let a := clamp n start in
  let b := clamp n stop in
  if (a <? b)%Z then String.substring (Z.to_nat a) (Z.to_nat (b - a)) s
  else EmptyString.

(** The highest position in [lo .. lo + count - 1] at which [sub] starts. *)
Fixpoint rfind_from (sub s : string) (lo count : nat) : option nat :=
  match count with
  | O => None
  | S k =>
      if starts_with sub (String.substring (lo + k) (String.length sub) s)
      then Some (lo + k)
      else rfind_from sub s lo k
  end.

(** [s.rfind(sub, start, stop)] for a non-empty [sub]: the highest index at
    which [sub] lies within [s[start:stop]], or [-1]. *)
Definition rfind (s sub : string) (start stop : Z) : Z :=
  let n := str_len s in
  let a := clamp n start in
  let b := clamp n stop in
  let m := str_len sub in
  if (b - a <? m)%Z then (-1)%Z
  else match rfind_from sub s (Z.to_nat a) (Z.to_nat (b - m - a + 1)) with
       | Some i => Z.of_nat i
       | None => (-1)%Z
       end.

(** [c.isspace()] for the code points below 256. *)
Definition is_space (c : ascii) : bool :=
  let n := nat_of_ascii c in
  ((9 <=? n) && (n <=? 13) || (28 <=? n) && (n <=? 32)
   || (n =? 133) || (n =? 160))%nat.

Fixpoint lstrip (s : string) : string :=
  match s with
  | EmptyString => EmptyString
  | String c s' => if is_space c then lstrip s' else s
  end.

Fixpoint rstrip (s : string) : string :=
  match s with
  | EmptyString => EmptyString
  | String c s' =>
      match rstrip s' with
      | EmptyString => if is_space c then EmptyString else String c EmptyString
      | r => String c r
      end
  end.

(** No whitespace at the start. *)
Definition starts_clean (s : string) : Prop :=
  match s with
  | EmptyString => True
  | String c _ => is_space c = false
  end.

(** [s.strip()]. *)
Definition strip (s : string) : string := rstrip (lstrip s).

(** The characters of a string that are not whitespace, in order. *)
Definition visible (s : string) : list ascii :=
  filter (fun c => negb (is_space c)) (list_ascii_of_string s).

(** The truth value of a string: non-empty. *)
Definition truthy (s : string) : bool :=
  match s with
  | EmptyString => false
  | String _ _ => true
  end.

End PyStr.

(** ** Text chunking *)

Module Chunker.

Local Open Scope Z_scope.

Definition newline : string := String (ascii_of_nat 10) EmptyString.

(** The state of the loop of [chunk_text]. *)
Record chunk_state : Type := mkChunkState {
  chunks : list string;
  current_chunk : list string;
  current_size : Z
}.

(** The truth value of a list: non-empty. *)
Definition nonempty {A : Type} (l : list A) : bool :=
  match l with
  | [] => false
  | _ :: _ => true
  end.

(** [[l[-1]] if l else []]. *)
Definition last_only {A : Type} (l : list A) : list A :=
  match rev l with
  | [] => []
  | x :: _ => [x]
  end.

(** [len(l[-1]) if l else 0]. *)
Definition last_size (l : list string) : Z :=
  match rev l with
  | [] => 0
  | x :: _ => PyStr.str_len x
  end.

(** The characters of a list of paragraphs, separators not counted: what
    [current_size] adds up. *)
Fixpoint total_size (paragraphs : list string) : Z :=
  match paragraphs with
  | [] => 0
  | p :: rest => PyStr.str_len p + total_size rest
  end.

(** One pass of the loop body of [chunk_text] for paragraph [para]. *)
Definition chunk_text_step (chunk_size overlap : Z) (separator : string)
    (st : chunk_state) (para : string) : chunk_state :=
  let para_size := PyStr.str_len para in
  let st1 :=
    if (current_size st + para_size >? chunk_size) && nonempty (current_chunk st)
    then
      let chunks' := chunks st ++ [PyStr.join separator (current_chunk st)] in
      let overlap_text := PyStr.join separator (current_chunk st) in
      if PyStr.str_len overlap_text >? overlap then
        mkChunkState chunks' (last_only (current_chunk st))
          (last_size (last_only (current_chunk st)))
      else mkChunkState chunks' [] 0
    else st in
  mkChunkState (chunks st1) (current_chunk st1 ++ [para])
    (current_size st1 + para_size).

Definition chunk_text (text : string) (chunk_size overlap : Z)
    (separator : string) : result (list string) :=
  paragraphs <- PyStr.split text separator ;;
  let st := fold_left (chunk_text_step chunk_size overlap separator)
              paragraphs (mkChunkState [] [] 0) in
  Ok (if nonempty (current_chunk st)
      then chunks st ++ [PyStr.join separator (current_chunk st)]
      else chunks st).

Definition boundaries : list string :=
  [ String "." (String " " EmptyString);
    String "!" (String " " EmptyString);
    String "?" (String " " EmptyString);
    newline ].

(** The [for boundary in ...] loop: the first boundary whose last occurrence
    in the window lies after [start] moves [stop] just behind it. *)
Fixpoint break_at (text : string) (start stop : Z) (bs : list string) : Z :=
  match bs with
  | [] => stop
  | boundary :: rest =>
      let last_boundary := PyStr.rfind text boundary start stop in
      if last_boundary >? start then last_boundary + PyStr.str_len boundary
      else break_at text start stop rest
  end.

(** One pass of the [while] body: the chunk appended and the next [start]. *)
Definition window (text : string) (chunk_size overlap start : Z) : string * Z :=
  let stop := start + chunk_size in
  let stop :=
    if stop <? PyStr.str_len text then break_at text start stop boundaries
    else stop in
  (PyStr.strip (PyStr.slice text start stop), stop - overlap).

(** The [while start < len(text)] loop, run for at most [fuel] passes:
    [None] when the passes run out before the loop exits. *)
Fixpoint chunk_loop (fuel : nat) (text : string) (chunk_size overlap start : Z)
    (chunks : list string) : option (list string) :=
  if start <? PyStr.str_len text then
    match fuel with
    | O => None
    | S fuel' =>
        let '(chunk, next) := window text chunk_size overlap start in
        chunk_loop fuel' text chunk_size overlap next (chunks ++ [chunk])
    end
  else Some chunks.

Definition chunk_by_tokens (fuel : nat) (text : string)
    (max_tokens overlap_tokens : Z) : option (list string) :=
  let chars_per_token := 4 in
  let chunk_size := max_tokens * chars_per_token in
  let overlap := overlap_tokens * chars_per_token in
  match chunk_loop fuel text chunk_size overlap 0 [] with
  | Some chunks => Some (filter PyStr.truthy chunks)
  | None => None
  end.

End Chunker.

(** ** The embedding client *)

Module Client.

Local Open Scope float_scope.

Record EmbeddingConfig : Type := mkEmbeddingConfig {
  provider : string;
  model : string;
  dimensions : Z;
  batch_size : Z;
  normalize : bool
}.

Record EmbeddingClient : Type := mkEmbeddingClient {
  config : EmbeddingConfig
}.

(** [EmbeddingClient.__init__]: [config or get_config_from_env()].  A
    dataclass instance is truthy; [from_env] is what reading the environment
    gives when no configuration is passed. *)
Definition init (config : option EmbeddingConfig)
    (from_env : result EmbeddingConfig) : result EmbeddingClient :=
  match config with
  | Some c => Ok (mkEmbeddingClient c)
  | None => c <- from_env ;; Ok (mkEmbeddingClient c)
  end.

(** [range(0, n, step)]: a zero step is a [ValueError], a negative one gives
    the empty range. *)
Definition range_from_zero (n step : Z) : result (list Z) :=
  if (step =? 0)%Z then Raise ValueError
  else if (step <? 0)%Z then Ok []
  else Ok (map (fun k => (Z.of_nat k * step)%Z)
             (seq 0 (Z.to_nat ((n + step - 1) / step)))).

(** [texts[i:i + batch_size]] for [0 <= i] and [0 < batch_size]. *)
Definition batch_at (texts : list string) (i size : Z) : list string :=
  firstn (Z.to_nat size) (skipn (Z.to_nat i) texts).

(** [np.array(rows)] on a list of lists of floats: the rows of an array have
    one length, and rows of different lengths are a [ValueError] (the
    inhomogeneous shape of NumPy 1.24 and later).  No rows give an array of
    one dimension and no elements, empty rows an array of shape (n, 0). *)
Definition np_array (rows : list (list float)) : result (list (list float)) :=
  match rows with
  | [] => Ok []
  | row :: rest =>
      if forallb (fun r => Nat.eqb (List.length r) (List.length row)) rest
      then Ok rows
      else Raise ValueError
  end.

(** [np.maximum(a, b)], which hands a NaN on. *)
Definition np_maximum (a b : float) : float :=
  if is_nan a then a else if is_nan b then b else if a <? b then b else a.

(** The binary64 value of the literal [1e-10]. *)
Definition eps : float := 0x1.b7cdfd9d7bdbbp-34.

(** [_normalize]: each row over its norm, the norm kept above [1e-10].  An
    array with no rows has one dimension and no axis 1. *)
Definition _normalize (embeddings : list (list float)) : result (list (list float)) :=
  match embeddings with
  | [] => Raise AxisError
  | _ =>
      Ok (map (fun row =>
                 VectorMath.scale_div row (np_maximum (VectorMath.norm row) eps))
              embeddings)
  end.

Section Embed.

(** The provider call, overridden in a subclass. *)
Variable _embed_batch : list string -> result (list (list float)).

Fixpoint embed_batches (texts : list string) (size : Z) (starts : list Z)
    (all_embeddings : list (list float)) : result (list (list float)) :=
  match starts with
  | [] => Ok all_embeddings
  | i :: rest =>
      embeddings <- _embed_batch (batch_at texts i size) ;;
      embed_batches texts size rest (all_embeddings ++ embeddings)
  end.

(** [embed] on a list of texts. *)
Definition embed (self : EmbeddingClient) (texts : list string)
    : result (list (list float)) :=
  let size := batch_size (config self) in
  starts <- range_from_zero (len texts) size ;;
  all_embeddings <- embed_batches texts size starts [] ;;
  result <- np_array all_embeddings ;;
  if normalize (config self) then _normalize result
  else Ok result.

End Embed.

End Client.

(** ** The embedding cache *)

Module Cache.

(** A Python [dict] with integer keys, in insertion order. *)
Definition dict (V : Type) : Type := list (Z * V).

Fixpoint dict_get {V : Type} (d : dict V) (k : Z) : option V :=
  match d with
  | [] => None
  | (k', v) :: rest => if (k' =? k)%Z then Some v else dict_get rest k
  end.

(** [d[k] = v]: a key already present keeps its place, a new one goes last. *)
Fixpoint dict_set {V : Type} (d : dict V) (k : Z) (v : V) : dict V :=
  match d with
  | [] => [(k, v)]
  | (k', v') :: rest =>
      if (k' =? k)%Z then (k, v) :: rest else (k', v') :: dict_set rest k v
  end.

(** [del d[k]]. *)
Fixpoint dict_del {V : Type} (d : dict V) (k : Z) : dict V :=
  match d with
  | [] => []
  | (k', v') :: rest =>
      if (k' =? k)%Z then rest else (k', v') :: dict_del rest k
  end.

Definition keys {V : Type} (d : dict V) : list Z := map fst d.

Record EmbeddingCache : Type := mkEmbeddingCache {
  cache : dict (list float);
  max_size : Z
}.

Definition init (max_size : Z) : EmbeddingCache :=
  mkEmbeddingCache [] max_size.

Section Hashed.

(** Python's [hash] on strings. *)
Variable hash : string -> Z.

Definition get (self : EmbeddingCache) (text : string) : option (list float) :=
  dict_get (cache self) (hash text).

(** [set]: [next(iter(self.cache))] on an empty dict is a [StopIteration]. *)
Definition set (self : EmbeddingCache) (text : string) (embedding : list float)
    : result EmbeddingCache :=
  if (len (cache self) >=? max_size self)%Z then
    match cache self with
    | [] => Raise StopIteration
    | (first_key, _) :: _ =>
        let cache' := dict_del (cache self) first_key in
        Ok (mkEmbeddingCache (dict_set cache' (hash text) embedding) (max_size self))
    end
  else
    Ok (mkEmbeddingCache (dict_set (cache self) (hash text) embedding) (max_size self)).

(** [get_or_compute]: the value returned and the cache afterwards. *)
Definition get_or_compute (self : EmbeddingCache) (text : string)
    (compute_fn : string -> result (list float))
    : result (list float * EmbeddingCache) :=
  match get self text with
  | Some cached => Ok (cached, self)
  | None =>
      embedding <- compute_fn text ;;
      self' <- set self text embedding ;;
      Ok (embedding, self')
  end.

(** The entry a [set] call writes. *)
Definition entry (item : string * list float) : Z * list float :=
  (hash (fst item), snd item).

(** A run of [set] calls, one after the other. *)
Fixpoint set_all (self : EmbeddingCache) (items : list (string * list float))
    : result EmbeddingCache :=
  match items with
  | [] => Ok self
  | (text, embedding) :: rest =>
      self' <- set self text embedding ;;
      set_all self' rest
  end.

End Hashed.

End Cache.

(** * Properties *)

(** ** The order on binary64 *)

Module FloatOrder.

Import Search.
Local Open Scope float_scope.

Ltac sf_compare_cases :=
  repeat match goal with
  | |- context [Z.compare ?a ?b] => destruct (Z.compare_spec a b); subst
  | |- context [Pos.compare_cont Eq ?a ?b] =>
      change (Pos.compare_cont Eq a b) with (Pos.compare a b);
      destruct (Pos.compare_spec a b); subst
  | H : context [Z.compare ?a ?b] |- _ => destruct (Z.compare_spec a b); subst
  | H : context [Pos.compare_cont Eq ?a ?b] |- _ =>
      change (Pos.compare_cont Eq a b) with (Pos.compare a b) in H;
      destruct (Pos.compare_spec a b); subst
  end.

Ltac sf_crush :=
  simpl; try congruence;
  try rewrite !Z.compare_refl; try rewrite !Pos.compare_cont_refl;
  simpl; try congruence;
  intros; sf_compare_cases; simpl in *; try congruence; try lia.

Lemma sf_less_asym x y : sf_less x y = true -> sf_less y x = false.
Proof.
  unfold sf_less, sf_nan, SFltb, SFeqb.
  destruct x as [[]|[]| |[] m1 e1], y as [[]|[]| |[] m2 e2]; sf_crush.
Qed.

Lemma sf_less_negtrans x y z :
  sf_less x y = false -> sf_less y z = false -> sf_less x z = false.
Proof.
  unfold sf_less, sf_nan, SFltb, SFeqb.
  destruct x as [[]|[]| |[] m1 e1], y as [[]|[]| |[] m2 e2],
           z as [[]|[]| |[] m3 e3]; sf_crush.
Qed.



Lemma sf_not_ltb_leb x y :
  SFltb x y = false -> sf_nan x = false -> sf_nan y = false -> SFleb y x = true.
Proof.
  unfold sf_nan, SFltb, SFleb, SFeqb.
  destruct x as [[]|[]| |[] m1 e1], y as [[]|[]| |[] m2 e2]; sf_crush.
Qed.

Lemma np_less_spec a b :
  Search.np_less a b = sf_less (Prim2SF a) (Prim2SF b).
Proof.
  unfold Search.np_less, sf_less, sf_nan, is_nan.
  now rewrite ltb_spec, !FloatAxioms.eqb_spec.
Qed.

Lemma np_less_asym a b :
  Search.np_less a b = true -> Search.np_less b a = false.
Proof. rewrite !np_less_spec. apply sf_less_asym. Qed.

Lemma np_less_negtrans a b c :
  Search.np_less a b = false -> Search.np_less b c = false ->
  Search.np_less a c = false.
Proof. rewrite !np_less_spec. apply sf_less_negtrans. Qed.



Lemma not_ltb_leb a b :
  (a <? b) = false -> is_nan a = false -> is_nan b = false -> (b <=? a) = true.
Proof.
  unfold is_nan. rewrite ltb_spec, leb_spec, !FloatAxioms.eqb_spec.
  apply sf_not_ltb_leb.
Qed.

End FloatOrder.

(** ** Similarity search *)

Module SearchFacts.

Import Search.
Local Open Scope float_scope.

Lemma insert_index_In v i acc x :
  In x (insert_index v i acc) <-> x = i \/ In x acc.
Proof.
  induction acc as [|j acc IH]; simpl.
  - intuition.
  - destruct (np_less (item v i) (item v j)); simpl; rewrite ?IH; intuition.
Qed.

Lemma insert_index_length v i acc :
  List.length (insert_index v i acc) = S (List.length acc).
Proof.
  induction acc as [|j acc IH]; simpl; [reflexivity|].
  destruct (np_less _ _); simpl; [now rewrite IH | reflexivity].
Qed.

Lemma insert_index_sorted v i acc :
  StronglySorted (index_order v) acc ->
  Forall (fun j => (j < i)%nat) acc ->
  StronglySorted (index_order v) (insert_index v i acc).
Proof.
  induction 1 as [|j acc Hs IH Hj]; intros Hlt; simpl.
  - repeat constructor.
  - inversion Hlt as [|? ? Hji Hrest]; subst.
    destruct (np_less (item v i) (item v j)) eqn:E.
    + constructor; [now apply IH|].
      apply Forall_forall. intros x [->|Hx]%insert_index_In.
      * split; [now apply FloatOrder.np_less_asym | congruence].
      * now apply (proj1 (Forall_forall _ _) Hj).
    + constructor; [now constructor|].
      constructor; [split; [exact E | now intros _]|].
      apply Forall_forall. intros x Hx. split.
      * eapply FloatOrder.np_less_negtrans; [exact E|].
        now apply (proj1 (Forall_forall _ _) Hj).
      * intros _. now apply (proj1 (Forall_forall _ _) Hrest).
Qed.

Lemma sorted_prefix_rev_spec v n :
  let l := sorted_prefix_rev v (seq 0 n) in
  StronglySorted (index_order v) l /\
  Forall (fun j => (j < n)%nat) l /\ List.length l = n.
Proof.
  unfold sorted_prefix_rev. induction n as [|n (Hs & Hlt & Hlen)].
  - repeat constructor.
  - cbv zeta. rewrite seq_S, fold_left_app. simpl. split; [|split].
    + now apply insert_index_sorted.
    + apply Forall_forall. intros x [->|Hx]%insert_index_In; [lia|].
      apply (proj1 (Forall_forall _ _) Hlt) in Hx. lia.
    + now rewrite insert_index_length, Hlen.
Qed.

Lemma argsort_reversed v :
  rev (argsort v) = sorted_prefix_rev v (seq 0 (List.length v)).
Proof. unfold argsort. apply rev_involutive. Qed.


Lemma slice_to_firstn {A : Type} (l : list A) k :
  exists n, slice_to l k = firstn n l /\ ((0 <= k)%Z -> n = Z.to_nat k).
Proof.
  unfold slice_to. destruct (k <? 0)%Z eqn:E; eexists; split; try reflexivity.
  apply Z.ltb_lt in E. lia.
Qed.

(** What the loop over [top_indices] returns: one result per index that
    passes the threshold test, in the order of the indices. *)
Lemma collect_spec sims texts thr idxs results :
  collect sims texts thr idxs = Ok results ->
  map (fun r => (index r, score r)) results =
  map (fun i => (Z.of_nat i, item sims i))
      (filter (fun i => negb (item sims i <? thr)) idxs).
Proof.
  revert results. induction idxs as [|i idxs IH]; simpl; intros results H.
  - now inversion H.
  - destruct (item sims i <? thr); simpl; [now apply IH|].
    destruct (text_at texts i); simpl in H; [|discriminate].
    destruct (collect sims texts thr idxs); simpl in H; [|discriminate].
    inversion H; subst. simpl. f_equal. now apply IH.
Qed.





(** The shape of a run of [search_similar] that returns. *)
Lemma search_similar_spec q E texts top_k thr results :
  search_similar q E texts top_k thr = Ok results ->
  exists sims n,
    VectorMath.cosine_similarity_matrix E q = Ok sims /\
    ((0 <= top_k)%Z -> n = Z.to_nat top_k) /\
    map (fun r => (index r, score r)) results =
    map (fun i => (Z.of_nat i, item sims i))
        (filter (fun i => negb (item sims i <? thr))
                (firstn n (rev (argsort sims)))).
Proof.
  unfold search_similar. intros H.
  destruct (VectorMath.cosine_similarity_matrix E q) as [sims|]; simpl in H;
    [|discriminate].
  destruct (slice_to_firstn (rev (argsort sims)) top_k) as (n & En & Hn).
  rewrite En in H. exists sims, n. repeat split; auto.
  now apply collect_spec with (texts := texts).
Qed.







End SearchFacts.

Module SearchClaims.

Import Search SearchFacts.
Local Open Scope float_scope.




(** C2 (as amended): for [0 <= top_k], [search_similar] returns at most
    [top_k] results; no returned score is below the threshold, so a returned
    score is at least the threshold unless one of the two is NaN; and the
    results are the first [top_k] indices of the descending order with those
    below the threshold left out. *)
Theorem search_similar_top_k_threshold :
  forall q E texts top_k thr results,
    (0 <= top_k)%Z ->
    search_similar q E texts top_k thr = Ok results ->
    (len results <= top_k)%Z /\
    Forall (fun r =>
              (score r <? thr) = false /\
              (is_nan (score r) = false -> is_nan thr = false ->
               (thr <=? score r) = true)) results /\
    exists sims,
      VectorMath.cosine_similarity_matrix E q = Ok sims /\
      map (fun r => (index r, score r)) results =
      map (fun i => (Z.of_nat i, item sims i))
          (filter (fun i => negb (item sims i <? thr))
                  (firstn (Z.to_nat top_k) (rev (argsort sims)))).
Proof.
  intros q E texts top_k thr results Hk H.
  destruct (search_similar_spec _ _ _ _ _ H) as (sims & n & Hsims & Hn & Hmap).
  rewrite (Hn Hk) in Hmap. clear Hn n. split; [|split].
  - unfold len. apply (f_equal (@List.length _)) in Hmap.
    rewrite !length_map in Hmap. rewrite Hmap.
    set (l := rev (argsort sims)).
    pose proof (filter_length_le (fun i => negb (item sims i <? thr))
                  (firstn (Z.to_nat top_k) l)) as Hf.
    pose proof (firstn_le_length (Z.to_nat top_k) l). lia.
  - apply Forall_forall. intros r Hr.
    apply (in_map (fun r => (index r, score r))) in Hr.
    rewrite Hmap in Hr. apply in_map_iff in Hr as (i & Ei & Hi).
    apply filter_In in Hi as [_ Hi]. injection Ei as _ Es.
    apply negb_true_iff in Hi. rewrite <- Es. split; [exact Hi|].
    intros N1 N2. now apply FloatOrder.not_ltb_leb.
  - now exists sims.
Qed.

Lemma search_similar_top_k_threshold_witness :
  let results := [mkSearchResult 1 1 (Some "b"%string) None] in
  (len results <= 1)%Z /\
  Forall (fun r =>
            (score r <? 0) = false /\
            (is_nan (score r) = false -> is_nan 0 = false ->
             (0 <=? score r) = true)) results /\
  exists sims,
    VectorMath.cosine_similarity_matrix [[1; 0]; [1; 0]; [0; 1]] [1; 0] = Ok sims /\
    map (fun r => (index r, score r)) results =
    map (fun i => (Z.of_nat i, item sims i))
        (filter (fun i => negb (item sims i <? 0))
                (firstn (Z.to_nat 1) (rev (argsort sims)))).
Proof.
  intros results.
  apply (@search_similar_top_k_threshold [1; 0] [[1; 0]; [1; 0]; [0; 1]]
           (Some ["a"; "b"; "c"]%string) 1 0 results).
  - lia.
  - reflexivity.
Defined.

(** C2 as stated fails twice.  A negative [top_k] is a slice bound counted
    from the end: with [top_k = -1] and two candidates one result comes back,
    more than [top_k].  A candidate of norm zero scores NaN, which the test
    [score < threshold] lets through although NaN is not [>=] the threshold. *)
Lemma search_similar_top_k_threshold_fails :
  (exists results,
     search_similar [1; 0] [[1; 0]; [0; 1]] None (-1) 0 = Ok results /\
     ~ (len results <= -1)%Z) /\
  (exists r,
     search_similar [1; 0] [[0; 0]] None 5 0 = Ok [r] /\
     (0 <=? score r) = false).
Proof.
  split.
  - eexists. split; [reflexivity|]. unfold len. simpl. lia.
  - eexists. split; reflexivity.
Qed.

End SearchClaims.

(** ** Deduplication *)

Module DedupFacts.

Import Dedup.
Local Open Scope float_scope.

Lemma cosine_similarity_aligned a b :
  List.length a = List.length b ->
  exists sim, VectorMath.cosine_similarity a b = Ok sim.
Proof.
  intros H. unfold VectorMath.cosine_similarity, VectorMath.np_dot.
  rewrite H, Nat.eqb_refl. simpl. eauto.
Qed.

Lemma is_duplicate_returns E thr i kept :
  uniform E -> (i < List.length E)%nat ->
  Forall (fun j => (j < List.length E)%nat) kept ->
  exists b, is_duplicate E thr i kept = Ok b.
Proof.
  intros HU Hi. induction 1 as [|j kept Hj _ IH]; simpl; [eauto|].
  destruct (cosine_similarity_aligned (nth i E []) (nth j E []) (HU i j Hi Hj))
    as [sim ->]. simpl.
  destruct (thr <=? sim); eauto.
Qed.

Lemma is_duplicate_dissimilar E thr i kept :
  Forall (fun j => exists sim,
            VectorMath.cosine_similarity (nth i E []) (nth j E []) = Ok sim /\
            (thr <=? sim) = false) kept ->
  is_duplicate E thr i kept = Ok false.
Proof.
  induction 1 as [|j kept (sim & Hsim & Hlt) _ IH]; simpl; [reflexivity|].
  rewrite Hsim. simpl. now rewrite Hlt.
Qed.

(** The loop only ever appends to [unique_indices]. *)
Lemma dedup_loop_returns E thr range kept :
  uniform E ->
  Forall (fun i => (i < List.length E)%nat) range ->
  Forall (fun j => (j < List.length E)%nat) kept ->
  exists more, dedup_loop E thr range kept = Ok (kept ++ more).
Proof.
  intros HU Hr. revert kept.
  induction Hr as [|i range Hi _ IH]; intros kept Hk; simpl.
  - exists []. now rewrite app_nil_r.
  - destruct (is_duplicate_returns thr HU Hi Hk) as [[] ->]; simpl.
    + now apply IH.
    + destruct (IH (kept ++ [i])) as [more ->].
      * apply Forall_app. split; [assumption | now repeat constructor].
      * exists (i :: more). now rewrite <- app_assoc.
Qed.

Lemma dedup_loop_all E thr m k :
  (forall i j, (j < i < k + m)%nat -> exists sim,
      VectorMath.cosine_similarity (nth i E []) (nth j E []) = Ok sim /\
      (thr <=? sim) = false) ->
  dedup_loop E thr (seq k m) (seq 0 k) = Ok (seq 0 (k + m)).
Proof.
  revert k. induction m as [|m IH]; intros k H; simpl.
  - now rewrite Nat.add_0_r.
  - rewrite is_duplicate_dissimilar.
    + simpl. replace (seq 0 k ++ [k]) with (seq 0 (S k)) by now rewrite seq_S.
      rewrite IH; [f_equal; f_equal; lia|].
      intros i j Hij. apply H. lia.
    + apply Forall_forall. intros j Hj%in_seq. apply H. lia.
Qed.

End DedupFacts.

Module DedupClaims.

Import Dedup DedupFacts.
Local Open Scope float_scope.

(** C6 (as amended): on a non-empty two-dimensional array
    [deduplicate_by_similarity] returns a list that starts with index 0; and
    for any threshold, 1.0 included, it returns every index [0 .. n-1] when
    no row reaches the threshold in cosine similarity with an earlier row. *)
Theorem deduplicate_keeps_first_and_dissimilar :
  forall E thr,
    E <> [] -> uniform E ->
    exists kept,
      deduplicate_by_similarity E thr = Ok kept /\
      hd_error kept = Some 0%nat /\
      ((forall i j sim, (j < i < List.length E)%nat ->
          VectorMath.cosine_similarity (nth i E []) (nth j E []) = Ok sim ->
          (thr <=? sim) = false) ->
       kept = seq 0 (List.length E)).
Proof.
  intros E thr HE HU. unfold deduplicate_by_similarity.
  destruct E as [|row E']; [congruence|].
  set (E := row :: E') in *. simpl List.length. simpl seq.
  cbn [dedup_loop is_duplicate bind app].
  destruct (@dedup_loop_returns E thr (seq 1 (List.length E')) [0%nat] HU)
    as [more Hmore].
  - apply Forall_forall. intros i Hi%in_seq. subst E. simpl. lia.
  - constructor; [subst E; simpl; lia | constructor].
  - exists ([0%nat] ++ more). split; [exact Hmore|]. split; [reflexivity|].
    intros Hsim.
    assert (Hall : dedup_loop E thr (seq 1 (List.length E')) (seq 0 1) =
                   Ok (seq 0 (1 + List.length E'))).
    { apply dedup_loop_all. intros i j Hij.
      destruct (@cosine_similarity_aligned (nth i E []) (nth j E []))
        as [sim Hs].
      - apply HU; subst E; simpl; lia.
      - exists sim. split; [exact Hs|].
        apply (Hsim i j sim); [subst E; simpl; lia | exact Hs]. }
    simpl seq in Hall. rewrite Hmore in Hall. now inversion Hall.
Qed.

Lemma deduplicate_keeps_first_and_dissimilar_witness :
  exists kept,
    deduplicate_by_similarity [[1; 0]; [0; 1]] 1 = Ok kept /\
    hd_error kept = Some 0%nat /\
    kept = seq 0 2.
Proof.
  destruct (@deduplicate_keeps_first_and_dissimilar [[1; 0]; [0; 1]] 1)
    as (kept & Hrun & Hhd & Hall).
  - discriminate.
  - intros [|[|i]] [|[|j]] Hi Hj; simpl in *; try reflexivity; lia.
  - exists kept. split; [exact Hrun|]. split; [exact Hhd|].
    apply Hall. intros i j sim Hij Hsim.
    assert (Ei : i = 1%nat) by (simpl in Hij; lia).
    assert (Ej : j = 0%nat) by lia.
    subst i j. vm_compute in Hsim. injection Hsim as <-. reflexivity.
Defined.

(** C6 as stated fails: [1, 0] and [2, 0] are distinct vectors, their cosine
    similarity is 1.0, and with threshold 1.0 index 1 is dropped. *)
Lemma deduplicate_drops_parallel_vector :
  [1; 0] <> [2; 0] /\
  deduplicate_by_similarity [[1; 0]; [2; 0]] 1 = Ok [0%nat] /\
  [0%nat] <> seq 0 2.
Proof.
  split; [|split].
  - intros H.
    apply (f_equal (fun l => match l with x :: _ => x <? 2 | [] => false end)) in H.
    vm_compute in H. discriminate.
  - reflexivity.
  - discriminate.
Qed.

End DedupClaims.

(** ** Vector math *)

Module VectorClaims.

Import VectorMath.
Local Open Scope float_scope.

(** C9 (as amended): for vectors of different lengths [cosine_similarity]
    and [dot_product] raise NumPy's shape error and return no number;
    [euclidean_distance] raises it too unless one of the vectors has length
    one, and then that vector is broadcast and a distance is returned. *)
Theorem length_mismatch_raises :
  forall a b,
    List.length a <> List.length b ->
    cosine_similarity a b = Raise ValueError /\
    dot_product a b = Raise ValueError /\
    (List.length a <> 1%nat -> List.length b <> 1%nat ->
     euclidean_distance a b = Raise ValueError) /\
    (List.length a = 1%nat \/ List.length b = 1%nat ->
     exists d, euclidean_distance a b = Ok d).
Proof.
  intros a b H. apply Nat.eqb_neq in H.
  unfold cosine_similarity, dot_product, euclidean_distance, np_dot, np_sub.
  rewrite H. simpl. repeat split.
  - intros Ha Hb. destruct a as [|x [|x' a]], b as [|y [|y' b]];
      simpl in *; congruence.
  - intros [Ha|Hb].
    + destruct a as [|x [|x' a]]; try discriminate. simpl. eauto.
    + destruct b as [|y [|y' b]]; try discriminate.
      destruct a as [|x [|x' a]]; simpl; eauto.
Qed.

Lemma length_mismatch_raises_witness :
  cosine_similarity [1; 2; 3] [4; 5] = Raise ValueError /\
  dot_product [1; 2; 3] [4; 5] = Raise ValueError /\
  euclidean_distance [1; 2; 3] [4; 5] = Raise ValueError /\
  exists d, euclidean_distance [1; 2; 3] [5] = Ok d.
Proof.
  destruct (@length_mismatch_raises [1; 2; 3] [4; 5]) as (Hc & Hd & He & _);
    [simpl; lia|].
  destruct (@length_mismatch_raises [1; 2; 3] [5]) as (_ & _ & _ & Hb);
    [simpl; lia|].
  split; [exact Hc|]. split; [exact Hd|]. split.
  - apply He; simpl; lia.
  - apply Hb. right. reflexivity.
Defined.

(** C9 as stated fails for [euclidean_distance]: a vector of length three and
    one of length one give a distance, not an error. *)
Lemma euclidean_distance_broadcasts :
  List.length [1; 2; 3] <> List.length [5] /\
  exists d, euclidean_distance [1; 2; 3] [5] = Ok d.
Proof.
  split; [simpl; lia | eexists; reflexivity].
Qed.

End VectorClaims.

(** ** Text chunking *)

Module ChunkerFacts.

Import Chunker.
Local Open Scope Z_scope.

Lemma str_len_nonneg s : 0 <= PyStr.str_len s.
Proof. unfold PyStr.str_len. lia. Qed.

(** A boundary found after [start] puts the cut after [start] too. *)
Lemma break_at_after_start text start stop bs :
  start < stop -> start < break_at text start stop bs.
Proof.
  intros H. induction bs as [|b bs IH]; simpl; [exact H|].
  destruct (PyStr.rfind text b start stop >? start) eqn:E; [|exact IH].
  apply Z.gtb_lt in E. pose proof (str_len_nonneg b). lia.
Qed.

(** Without overlap a window of positive size moves [start] forward. *)
Lemma window_advances text chunk_size start :
  0 < chunk_size -> start < snd (window text chunk_size 0 start).
Proof.
  intros H. unfold window.
  destruct (start + chunk_size <? PyStr.str_len text); cbn [snd].
  - assert (Hb : start < break_at text start (start + chunk_size) boundaries)
      by (apply break_at_after_start; lia).
    lia.
  - lia.
Qed.

Lemma chunk_loop_exits text chunk_size :
  0 < chunk_size ->
  forall fuel start chunks,
    PyStr.str_len text - start <= Z.of_nat fuel ->
    exists result, chunk_loop fuel text chunk_size 0 start chunks = Some result.
Proof.
  intros H. induction fuel as [|fuel IH]; intros start chunks Hm;
    cbn [chunk_loop]; destruct (start <? PyStr.str_len text) eqn:E; eauto;
    apply Z.ltb_lt in E.
  - lia.
  - pose proof (@window_advances text chunk_size start H) as Hw.
    destruct (window text chunk_size 0 start) as [chunk next].
    cbn [snd] in Hw. apply IH. lia.
Qed.

(** With no overlap and a positive [max_tokens] the loop exits, within as
    many passes as the text has characters. *)
Lemma chunk_by_tokens_exits_without_overlap text max_tokens :
  0 < max_tokens ->
  exists chunks,
    chunk_by_tokens (String.length text) text max_tokens 0 = Some chunks.
Proof.
  intros H. unfold chunk_by_tokens.
  destruct (@chunk_loop_exits text (max_tokens * 4) ltac:(lia)
              (String.length text) 0 [])
    as [result Hr].
  - unfold PyStr.str_len. lia.
  - change (0 * 4) with 0. rewrite Hr. eauto.
Qed.

Lemma chunk_loop_step text chunk_size overlap start chunk next :
  start < PyStr.str_len text ->
  window text chunk_size overlap start = (chunk, next) ->
  forall fuel chunks,
    chunk_loop (S fuel) text chunk_size overlap start chunks =
    chunk_loop fuel text chunk_size overlap next (chunks ++ [chunk]).
Proof.
  intros Hlt Hw fuel chunks. apply Z.ltb_lt in Hlt.
  cbn [chunk_loop]. now rewrite Hlt, Hw.
Qed.

(** A pass that leaves [start] where it was is repeated for ever. *)
Lemma chunk_loop_stuck text chunk_size overlap start chunk :
  start < PyStr.str_len text ->
  window text chunk_size overlap start = (chunk, start) ->
  forall fuel chunks,
    chunk_loop fuel text chunk_size overlap start chunks = None.
Proof.
  intros Hlt Hw. apply Z.ltb_lt in Hlt.
  induction fuel as [|fuel IH]; intros chunks; cbn [chunk_loop]; rewrite Hlt;
    [reflexivity|].
  rewrite Hw. apply IH.
Qed.

(** A window of size 0 on a text that is not empty is cut at its start: no
    boundary is looked for in an empty range. *)
Lemma window_of_size_zero text :
  text <> EmptyString -> window text 0 0 0 = (EmptyString, 0).
Proof.
  intros Hne. unfold window.
  assert (Hn : 0 < PyStr.str_len text)
    by (destruct text; [congruence | unfold PyStr.str_len; simpl; lia]).
  change (0 + 0) with 0. apply Z.ltb_lt in Hn as Hlt. rewrite Hlt.
  assert (Hfind : forall b, 0 < PyStr.str_len b -> PyStr.rfind text b 0 0 = -1).
  { intros b Hb. unfold PyStr.rfind, PyStr.clamp.
    change (0 <? 0) with false. cbv iota.
    replace (Z.min 0 (PyStr.str_len text)) with 0 by lia.
    change (0 - 0) with 0. apply Z.ltb_lt in Hb. now rewrite Hb. }
  assert (Hcut : break_at text 0 0 boundaries = 0).
  { unfold boundaries. cbn [break_at].
    rewrite !Hfind by (unfold PyStr.str_len; simpl; lia). reflexivity. }
  rewrite Hcut. unfold PyStr.slice, PyStr.clamp.
  change (0 <? 0) with false. cbv iota.
  replace (Z.min 0 (PyStr.str_len text)) with 0 by lia.
  reflexivity.
Qed.

(** With [max_tokens] 0 and no overlap the loop does not exit on any text
    that is not empty: every pass appends the empty chunk and leaves [start]
    at 0. *)
Lemma chunk_by_tokens_zero_window_never_exits text :
  text <> EmptyString -> forall fuel, chunk_by_tokens fuel text 0 0 = None.
Proof.
  intros Hne fuel. unfold chunk_by_tokens. change (0 * 4) with 0.
  rewrite (@chunk_loop_stuck text 0 0 0 EmptyString); [reflexivity| |].
  - destruct text; [congruence | unfold PyStr.str_len; simpl; lia].
  - now apply window_of_size_zero.
Qed.

(** What [chunk_by_tokens] returns holds no empty string. *)
Lemma chunk_by_tokens_nonempty fuel text max_tokens overlap_tokens chunks :
  chunk_by_tokens fuel text max_tokens overlap_tokens = Some chunks ->
  Forall (fun c => c <> EmptyString) chunks.
Proof.
  unfold chunk_by_tokens.
  destruct (chunk_loop _ _ _ _ _ _) as [l|]; [|discriminate].
  intros [= <-]. apply Forall_forall. intros c [_ Hc]%filter_In.
  now destruct c.
Qed.

Lemma split_returns text separator :
  separator <> EmptyString ->
  exists paragraphs, PyStr.split text separator = Ok paragraphs.
Proof.
  destruct separator; [congruence|]. simpl. eauto.
Qed.

End ChunkerFacts.

Module ChunkerClaims.

Import Chunker ChunkerFacts.
Local Open Scope string_scope.

(** C3 (as amended): [chunk_text] on the text "a\nb\nc" with [chunk_size]
    1, [overlap] 0 and separator "\n" returns the three chunks "a", "a\nb"
    and "b\nc": each emitted chunk is longer than the overlap, so its last
    paragraph starts the next chunk. *)
Theorem chunk_text_abc :
  chunk_text ("a" ++ newline ++ "b" ++ newline ++ "c") 1 0 newline =
  Ok ["a"; "a" ++ newline ++ "b"; "b" ++ newline ++ "c"].
Proof. reflexivity. Qed.

(** C3 as stated fails: the result is not ["a", "b", "c"]. *)
Lemma chunk_text_abc_not_split_in_three :
  exists chunks,
    chunk_text ("a" ++ newline ++ "b" ++ newline ++ "c") 1 0 newline = Ok chunks /\
    chunks <> ["a"; "b"; "c"].
Proof.
  eexists. split; [reflexivity | discriminate].
Qed.

(** C4 (the code fails it): on the text "abcde" with [max_tokens] 1 and
    [overlap_tokens] 1 a pass of the loop appends "abcd" and leaves the window
    start at 0, so the loop has not exited after any number of passes.  An
    overlap below the window size does not save it: on "A. xxxxxxxxxxxx" with
    [max_tokens] 3 and [overlap_tokens] 2 the cut after "A. " sends the start
    to -5, then to -7, where it stays. *)
Theorem chunk_by_tokens_overlap_never_exits :
  window "abcde" 4 4 0 = ("abcd", 0%Z) /\
  (forall fuel, chunk_by_tokens fuel "abcde" 1 1 = None) /\
  window "A. xxxxxxxxxxxx" 12 8 0 = ("A.", (-5)%Z) /\
  window "A. xxxxxxxxxxxx" 12 8 (-5) = ("", (-7)%Z) /\
  window "A. xxxxxxxxxxxx" 12 8 (-7) = ("", (-7)%Z) /\
  (forall fuel, chunk_by_tokens fuel "A. xxxxxxxxxxxx" 3 2 = None).
Proof.
  repeat split.
  - intros fuel. unfold chunk_by_tokens.
    change (1 * 4)%Z with 4%Z.
    now rewrite (@chunk_loop_stuck "abcde" 4 4 0 "abcd").
  - intros fuel. unfold chunk_by_tokens.
    change (3 * 4)%Z with 12%Z. change (2 * 4)%Z with 8%Z.
    destruct fuel as [|[|fuel]]; try reflexivity.
    rewrite (@chunk_loop_step "A. xxxxxxxxxxxx" 12 8 0 "A." (-5))
      by reflexivity.
    rewrite (@chunk_loop_step "A. xxxxxxxxxxxx" 12 8 (-5) "" (-7))
      by reflexivity.
    now rewrite (@chunk_loop_stuck "A. xxxxxxxxxxxx" 12 8 (-7) "").
Qed.

(** C7 (the code fails it): [chunk_text] on the empty text, with the default
    [chunk_size] 500, [overlap] 50 and separator "\n", returns one chunk, the
    empty string; and a text that starts with the separator has the empty
    string as its first chunk once the next paragraph does not fit. *)
Theorem chunk_text_emits_empty_chunk :
  chunk_text "" 500 50 newline = Ok [""] /\
  chunk_text (newline ++ "abc") 2 50 newline = Ok [""; "abc"].
Proof. split; reflexivity. Qed.

End ChunkerClaims.

(** ** Configuration values *)

Module ConfigClaims.

Import Chunker ChunkerFacts.
Local Open Scope string_scope.

(** C8 (as amended): neither [batch_size] nor [chunk_size] is checked.
    Constructing a client from a configuration returns the client whatever
    its [batch_size]; a [batch_size] of 0 shows only later, as the
    [ValueError] of [range] in [embed], raised before the provider is asked
    for anything; and [chunk_text] with any [chunk_size] and a non-empty
    separator returns a list of chunks.  Nothing is stated of
    [chunk_by_tokens] with [max_tokens <= 0]. *)
Theorem sizes_are_not_validated :
  (forall cfg from_env,
     Client.init (Some cfg) from_env = Ok (Client.mkEmbeddingClient cfg)) /\
  (forall embed_batch cfg texts,
     Client.batch_size cfg = 0%Z ->
     Client.embed embed_batch (Client.mkEmbeddingClient cfg) texts =
     Raise ValueError) /\
  (forall text chunk_size overlap separator,
     separator <> "" ->
     exists chunks, chunk_text text chunk_size overlap separator = Ok chunks).
Proof.
  repeat split.
  - intros embed_batch cfg texts H. unfold Client.embed, Client.range_from_zero.
    simpl. now rewrite H.
  - intros text chunk_size overlap separator H. unfold chunk_text.
    destruct (split_returns text H) as [paragraphs ->]. simpl. eauto.
Qed.

Lemma sizes_are_not_validated_witness :
  let cfg := Client.mkEmbeddingConfig "openai" "text-embedding-3-small" 1536 0 true in
  Client.init (Some cfg) (Raise ValueError) = Ok (Client.mkEmbeddingClient cfg) /\
  Client.embed (fun _ => Raise NotImplementedError)
    (Client.mkEmbeddingClient cfg) ["a"] = Raise ValueError /\
  exists chunks, chunk_text ("a" ++ newline ++ "b") (-1) 0 newline = Ok chunks.
Proof.
  intros cfg.
  destruct sizes_are_not_validated as (Hinit & Hembed & Hchunk).
  split; [apply Hinit|]. split.
  - apply Hembed. reflexivity.
  - apply Hchunk. discriminate.
Defined.

(** C8 as stated fails: with [batch_size] and [chunk_size] 0, construction
    gives a client and [chunk_text] gives chunks; nothing is raised. *)
Lemma zero_sizes_are_accepted :
  let cfg := Client.mkEmbeddingConfig "openai" "text-embedding-3-small" 1536 0 true in
  Client.init (Some cfg) (Raise ValueError) = Ok (Client.mkEmbeddingClient cfg) /\
  chunk_text ("a" ++ newline ++ "b") 0 0 newline = Ok ["a"; "a" ++ newline ++ "b"].
Proof.
  repeat split.
Qed.

End ConfigClaims.

(** ** The embedding cache *)

Module CacheFacts.

Import Cache.
Local Open Scope Z_scope.

Section Dict.

Context {V : Type}.
Implicit Types (d : dict V) (k : Z) (v : V).

Lemma dict_set_fresh d k v :
  ~ In k (keys d) -> dict_set d k v = d ++ [(k, v)].
Proof.
  induction d as [|[k' v'] d IH]; simpl; intros H; [reflexivity|].
  destruct (k' =? k) eqn:E.
  - apply Z.eqb_eq in E. tauto.
  - f_equal. apply IH. tauto.
Qed.

Lemma dict_set_present d k v :
  In k (keys d) -> keys (dict_set d k v) = keys d.
Proof.
  induction d as [|[k' v'] d IH]; simpl; intros H; [tauto|].
  destruct (k' =? k) eqn:E; simpl.
  - apply Z.eqb_eq in E. now subst.
  - f_equal. apply IH. destruct H as [H|H]; [|exact H].
    apply Z.eqb_neq in E. congruence.
Qed.

Lemma dict_set_length_le d k v :
  (List.length (dict_set d k v) <= S (List.length d))%nat.
Proof.
  induction d as [|[k' v'] d IH]; simpl; [lia|].
  destruct (k' =? k); simpl; lia.
Qed.

Lemma dict_get_set d k v : dict_get (dict_set d k v) k = Some v.
Proof.
  induction d as [|[k' v'] d IH]; simpl.
  - now rewrite Z.eqb_refl.
  - destruct (k' =? k) eqn:E; simpl; [now rewrite Z.eqb_refl | now rewrite E].
Qed.

Lemma dict_get_absent d k : ~ In k (keys d) -> dict_get d k = None.
Proof.
  induction d as [|[k' v'] d IH]; simpl; intros H; [reflexivity|].
  destruct (k' =? k) eqn:E.
  - apply Z.eqb_eq in E. tauto.
  - apply IH. tauto.
Qed.

Lemma dict_del_first d k v : dict_del ((k, v) :: d) k = d.
Proof. simpl. now rewrite Z.eqb_refl. Qed.

End Dict.

Section Hashed.

Variable hash : string -> Z.

Lemma set_returns_bounded self text embedding :
  1 <= max_size self -> len (cache self) <= max_size self ->
  exists self',
    set hash self text embedding = Ok self' /\
    max_size self' = max_size self /\
    len (cache self') <= max_size self.
Proof.
  intros H1 Hle. unfold set.
  destruct (len (cache self) >=? max_size self) eqn:E.
  - destruct (cache self) as [|[first_key first_val] rest] eqn:Ec.
    + unfold len in E. simpl in E. apply Z.geb_le in E. lia.
    + rewrite dict_del_first. eexists. split; [reflexivity|]. simpl.
      split; [reflexivity|].
      pose proof (dict_set_length_le rest (hash text) embedding).
      unfold len in *. simpl in Hle. lia.
  - eexists. split; [reflexivity|]. simpl. split; [reflexivity|].
    pose proof (dict_set_length_le (cache self) (hash text) embedding).
    assert (len (cache self) < max_size self)
      by (rewrite Z.geb_leb in E; apply Z.leb_gt in E; lia).
    unfold len in *. lia.
Qed.

(** At capacity the first entry goes, then the key is written. *)
Lemma set_at_capacity self text embedding first_key first_val rest :
  cache self = (first_key, first_val) :: rest ->
  max_size self <= len (cache self) ->
  set hash self text embedding =
  Ok (mkEmbeddingCache (dict_set rest (hash text) embedding) (max_size self)).
Proof.
  intros Hc Hle. unfold set.
  assert (E : (len (cache self) >=? max_size self) = true)
    by (apply Z.geb_le; lia).
  rewrite E, Hc. now rewrite dict_del_first.
Qed.

Lemma set_all_bounded items :
  forall self,
    1 <= max_size self -> len (cache self) <= max_size self ->
    exists self',
      set_all hash self items = Ok self' /\
      max_size self' = max_size self /\
      len (cache self') <= max_size self.
Proof.
  induction items as [|[text embedding] items IH]; intros self H1 Hle; simpl.
  - eauto.
  - destruct (@set_returns_bounded self text embedding H1 Hle)
      as (self1 & -> & Hm & Hl). simpl.
    destruct (IH self1) as (self2 & Hs & Hm2 & Hl2); try lia.
    exists self2. rewrite Hs. repeat split; lia.
Qed.

Lemma set_all_app self items1 items2 :
  set_all hash self (items1 ++ items2) =
  bind (set_all hash self items1) (fun self' => set_all hash self' items2).
Proof.
  revert self. induction items1 as [|[text embedding] items1 IH]; intros self;
    simpl; [reflexivity|].
  destruct (set hash self text embedding); simpl; [apply IH | reflexivity].
Qed.

(** Below capacity, new keys are appended in the order of the calls. *)
Lemma set_all_fresh items :
  forall d m,
    NoDup (keys d ++ map (fun item => hash (fst item)) items) ->
    len d + len items <= m ->
    set_all hash (mkEmbeddingCache d m) items =
    Ok (mkEmbeddingCache (d ++ map (entry hash) items) m).
Proof.
  induction items as [|[text embedding] items IH]; intros d m Hnd Hlen; simpl.
  - now rewrite app_nil_r.
  - unfold set. simpl cache. simpl max_size.
    assert (E : (len d >=? m) = false).
    { rewrite Z.geb_leb. apply Z.leb_gt. unfold len in *. simpl in Hlen. lia. }
    rewrite E. simpl.
    rewrite dict_set_fresh.
    + rewrite IH.
      * now rewrite <- app_assoc.
      * unfold keys in *. rewrite map_app, <- app_assoc. exact Hnd.
      * unfold len in *. rewrite length_app. simpl in *. lia.
    + simpl in Hnd. apply NoDup_remove_2 in Hnd.
      intros Hin. apply Hnd. apply in_or_app. now left.
Qed.

End Hashed.

End CacheFacts.

Module CacheClaims.

Import Cache CacheFacts.
Local Open Scope Z_scope.

(** C5: for a cache built with [max_size >= 1], after any run of [set]
    calls the number of entries is at most [max_size]; and after [set] calls
    on [max_size + 1] texts with pairwise distinct hashes the cache holds
    exactly [max_size] entries, those of every text but the first in the
    order of the calls, and the first text is no longer found. *)
Theorem cache_bounded_fifo :
  forall (hash : string -> Z) (max_size : Z),
    1 <= max_size ->
    (forall items, exists self,
        set_all hash (init max_size) items = Ok self /\
        len (cache self) <= max_size) /\
    (forall items,
        NoDup (map (fun item => hash (fst item)) items) ->
        len items = max_size + 1 ->
        exists self,
          set_all hash (init max_size) items = Ok self /\
          len (cache self) = max_size /\
          cache self = map (fun item => (hash (fst item), snd item)) (tl items) /\
          get hash self (fst (hd (EmptyString, []) items)) = None).
Proof.
  intros hash m Hm. split.
  - intros items.
    destruct (@set_all_bounded hash items (init m)) as (self & Hs & _ & Hl);
      simpl; try (unfold len; simpl; lia).
    exists self. split; [exact Hs | exact Hl].
  - intros items Hnd Hlen.
    destruct (exists_last (l := items)) as (firsts & [text embedding] & ->).
    { intros ->. unfold len in Hlen. simpl in Hlen. lia. }
    assert (Hf : len firsts = m).
    { unfold len in *. rewrite length_app in Hlen. simpl in Hlen. lia. }
    rewrite map_app in Hnd. simpl in Hnd.
    rewrite set_all_app. unfold init.
    rewrite (@set_all_fresh hash firsts [] m).
    + destruct firsts as [|[text0 embedding0] firsts].
      { unfold len in Hf. simpl in Hf. lia. }
      cbn [bind set_all app].
      rewrite (@set_at_capacity hash _ text embedding (hash text0) embedding0
                 (map (entry hash) firsts)).
      2: reflexivity.
      2: { simpl. unfold len in *. simpl in *. rewrite length_map. lia. }
      cbn [bind max_size]. rewrite dict_set_fresh.
      * eexists. split; [reflexivity|]. simpl cache.
        change ((hash text, embedding)) with (entry hash (text, embedding)).
        split; [|split].
        -- unfold len in *. rewrite length_app, length_map. simpl in *. lia.
        -- simpl tl. now rewrite map_app.
        -- unfold get. simpl. apply dict_get_absent.
           simpl in Hnd. apply NoDup_cons_iff in Hnd as [Hnot _].
           unfold keys. rewrite map_app, map_map. simpl. exact Hnot.
      * simpl in Hnd. apply NoDup_cons_iff in Hnd as [_ Hnd].
        apply NoDup_remove_2 in Hnd. rewrite app_nil_r in Hnd.
        unfold keys. now rewrite map_map.
    + simpl. now apply NoDup_remove_1 in Hnd; rewrite app_nil_r in Hnd.
    + unfold len in *. simpl. lia.
Qed.

Lemma cache_bounded_fifo_witness :
  let hash := fun s : string => Z.of_nat (String.length s) in
  let items := [("a"%string, [1%float]); ("bb"%string, [2%float]);
                ("ccc"%string, [3%float])] in
  (exists self,
      set_all hash (init 2) items = Ok self /\ len (cache self) <= 2) /\
  (exists self,
      set_all hash (init 2) items = Ok self /\
      len (cache self) = 2 /\
      cache self = [(2, [2%float]); (3, [3%float])] /\
      get hash self "a" = None).
Proof.
  intros hash items.
  destruct (@cache_bounded_fifo hash 2) as [Hbound Hfifo]; [lia|].
  split; [apply Hbound|].
  apply (Hfifo items).
  - unfold items, hash. simpl.
    repeat (apply NoDup_cons; [simpl; intuition lia|]). apply NoDup_nil.
  - reflexivity.
Defined.

(** C10: when the cache holds exactly [max_size] entries and [set] is called
    with a text whose hash is already a key, the call returns a cache from
    which the oldest entry was deleted before the key was written; so when the
    key is not the oldest one, [max_size - 1] entries are left, the oldest key
    is gone, the other keys stay and the text maps to the new embedding. *)
Theorem set_cached_key_at_capacity_evicts :
  forall (hash : string -> Z) self text embedding first_key first_val rest,
    cache self = (first_key, first_val) :: rest ->
    NoDup (keys (cache self)) ->
    len (cache self) = max_size self ->
    In (hash text) (keys (cache self)) ->
    exists self',
      set hash self text embedding = Ok self' /\
      cache self' = dict_set rest (hash text) embedding /\
      (hash text <> first_key ->
       len (cache self') = max_size self - 1 /\
       keys (cache self') = keys rest /\
       dict_get (cache self') first_key = None /\
       get hash self' text = Some embedding).
Proof.
  intros hash self text embedding first_key first_val rest Hc Hnd Hlen Hin.
  rewrite (@set_at_capacity hash self text embedding _ _ _ Hc) by lia.
  rewrite Hc in *. eexists. split; [reflexivity|]. simpl cache.
  split; [reflexivity|]. intros Hne.
  assert (Hin' : In (hash text) (keys rest)).
  { simpl in Hin. destruct Hin as [Hin|Hin]; [congruence | exact Hin]. }
  pose proof (dict_set_present rest (hash text) embedding Hin') as Hk.
  repeat split.
  - rewrite <- Hlen. unfold len. unfold keys in Hk.
    rewrite <- (length_map fst (dict_set rest (hash text) embedding)), Hk.
    rewrite length_map. cbn [List.length]. lia.
  - exact Hk.
  - apply dict_get_absent. rewrite Hk.
    simpl in Hnd. now apply NoDup_cons_iff in Hnd as [Hnot _].
  - unfold get. simpl. apply dict_get_set.
Qed.

Lemma set_cached_key_at_capacity_evicts_witness :
  let hash := fun s : string => Z.of_nat (String.length s) in
  let self := mkEmbeddingCache [(1, [1%float]); (2, [2%float])] 2 in
  exists self',
    set hash self "bb" [3%float] = Ok self' /\
    cache self' = dict_set [(2, [2%float])] (hash "bb"%string) [3%float] /\
    (hash "bb"%string <> 1 ->
     len (cache self') = max_size self - 1 /\
     keys (cache self') = keys [(2, [2%float])] /\
     dict_get (cache self') 1 = None /\
     get hash self' "bb" = Some [3%float]).
Proof.
  intros hash self.
  apply (@set_cached_key_at_capacity_evicts hash self "bb" [3%float]
           1 [1%float] [(2, [2%float])]).
  - reflexivity.
  - simpl. repeat constructor; simpl; intuition lia.
  - reflexivity.
  - simpl. right. left. reflexivity.
Defined.

End CacheClaims.

(** * Further properties *)

(** ** The embedding cache: lookups, frames and the key invariant *)

Module CacheExtras.

Import Cache CacheFacts.
Local Open Scope Z_scope.

Lemma dict_get_set_other {V : Type} (d : dict V) k k' (v : V) :
  k' <> k -> dict_get (dict_set d k v) k' = dict_get d k'.
Proof.
  intros Hne. induction d as [|[k0 v0] d IH]; simpl.
  - destruct (k =? k') eqn:E; [apply Z.eqb_eq in E; congruence | reflexivity].
  - destruct (k0 =? k) eqn:E; simpl.
    + apply Z.eqb_eq in E. subst k0.
      destruct (k =? k') eqn:E'; [apply Z.eqb_eq in E'; congruence | reflexivity].
    + destruct (k0 =? k'); [reflexivity | exact IH].
Qed.

Lemma dict_set_keys_In {V : Type} (d : dict V) k (v : V) x :
  In x (keys (dict_set d k v)) <-> x = k \/ In x (keys d).
Proof.
  induction d as [|[k0 v0] d IH]; simpl; [intuition|].
  destruct (k0 =? k) eqn:E; simpl.
  - apply Z.eqb_eq in E. subst k0. intuition.
  - rewrite IH. intuition.
Qed.

Lemma dict_set_keys_NoDup {V : Type} (d : dict V) k (v : V) :
  NoDup (keys d) -> NoDup (keys (dict_set d k v)).
Proof.
  induction d as [|[k0 v0] d IH]; simpl; intros Hnd.
  - constructor; [intros [] | constructor].
  - inversion Hnd as [|? ? Hout Hrest]; subst.
    destruct (k0 =? k) eqn:E; simpl.
    + apply Z.eqb_eq in E. subst k0. now constructor.
    + constructor; [|now apply IH].
      rewrite dict_set_keys_In. intros [->|Hin]; [|tauto].
      apply Z.eqb_neq in E. congruence.
Qed.

Lemma set_keeps_keys_distinct hash self text embedding self' :
  set hash self text embedding = Ok self' ->
  NoDup (keys (cache self)) -> NoDup (keys (cache self')).
Proof.
  unfold set. intros H Hnd.
  destruct (len (cache self) >=? max_size self).
  - destruct (cache self) as [|[first_key first_val] rest]; [discriminate|].
    rewrite dict_del_first in H. injection H as <-. simpl.
    apply dict_set_keys_NoDup. simpl in Hnd. now inversion Hnd.
  - injection H as <-. simpl. now apply dict_set_keys_NoDup.
Qed.

Lemma get_after_set_lemma (hash : string -> Z) self text embedding text' self' :
  set hash self text embedding = Ok self' ->
  hash text' = hash text ->
  get hash self' text' = Some embedding.
Proof.
  intros H Hh. unfold get. rewrite Hh.
  unfold set in H. destruct (len (cache self) >=? max_size self).
  - destruct (cache self) as [|[first_key first_val] rest]; [discriminate|].
    injection H as <-. simpl cache. apply dict_get_set.
  - injection H as <-. simpl cache. apply dict_get_set.
Qed.

(** X1: after a [set] call that returns, [get] on the text written, and on
    any text with the same hash, returns the embedding written. *)
Theorem get_after_set :
  forall (hash : string -> Z) self text embedding self' text',
    set hash self text embedding = Ok self' ->
    hash text' = hash text ->
    get hash self' text' = Some embedding.
Proof.
  intros hash self text embedding self' text' H Hh.
  exact (get_after_set_lemma hash self text embedding text' H Hh).
Qed.

Lemma get_after_set_witness :
  let hash := fun s : string => Z.of_nat (String.length s) in
  get hash (mkEmbeddingCache [(2, [5%float])] 1) "cd" = Some [5%float].
Proof.
  intros hash.
  apply (@get_after_set hash (mkEmbeddingCache [(1, [4%float])] 1)
           "ab" [5%float] _ "cd"); reflexivity.
Defined.

(** X2: a [set] call changes what [get] returns only for texts that hash
    like the text written and, when the cache is full, for the oldest key:
    every other lookup gives what it gave before. *)
Theorem set_leaves_other_keys :
  forall (hash : string -> Z) self text embedding self' text',
    set hash self text embedding = Ok self' ->
    hash text' <> hash text ->
    get hash self' text' = get hash self text' \/
    (max_size self <= len (cache self) /\
     exists first_val rest, cache self = (hash text', first_val) :: rest).
Proof.
  intros hash self text embedding self' text' H Hne. unfold get.
  unfold set in H. destruct (len (cache self) >=? max_size self) eqn:E.
  - destruct (cache self) as [|[first_key first_val] rest] eqn:Ec;
      [discriminate|].
    rewrite dict_del_first in H. injection H as <-. simpl cache.
    rewrite dict_get_set_other by exact Hne.
    destruct (Z.eq_dec first_key (hash text')) as [->|Hk].
    + right. split; [apply Z.geb_le in E; exact E | eauto].
    + left. simpl. apply Z.eqb_neq in Hk. now rewrite Hk.
  - injection H as <-. simpl cache. left.
    now apply dict_get_set_other.
Qed.

Lemma set_leaves_other_keys_witness :
  let hash := fun s : string => Z.of_nat (String.length s) in
  let self := mkEmbeddingCache [(1, [4%float]); (3, [6%float])] 2 in
  let self' := mkEmbeddingCache [(3, [6%float]); (2, [5%float])] 2 in
  get hash self' "xyz" = get hash self "xyz" \/
  (max_size self <= len (cache self) /\
   exists first_val rest, cache self = (hash "xyz"%string, first_val) :: rest).
Proof.
  intros hash self self'.
  apply (@set_leaves_other_keys hash self "ab" [5%float] self' "xyz").
  - reflexivity.
  - discriminate.
Defined.

(** X3: the keys of the cache stay pairwise distinct: whatever run of [set]
    calls a cache built by [init] has seen, no key occurs twice. *)
Theorem cache_keys_distinct :
  forall (hash : string -> Z) max_size items self,
    set_all hash (init max_size) items = Ok self ->
    NoDup (keys (cache self)).
Proof.
  intros hash m items.
  assert (G : forall start self,
             NoDup (keys (cache start)) ->
             set_all hash start items = Ok self -> NoDup (keys (cache self))).
  { induction items as [|[text embedding] items IH]; intros start self Hnd H;
      simpl in H.
    - now injection H as <-.
    - destruct (set hash start text embedding) as [mid|] eqn:Es;
        [|discriminate].
      simpl in H. apply (IH mid); [|exact H].
      now apply (set_keeps_keys_distinct _ _ _ _ Es). }
  intros self. apply G. simpl. constructor.
Qed.

Lemma cache_keys_distinct_witness :
  let hash := fun s : string => Z.of_nat (String.length s) in
  NoDup (keys [(2, [3%float]); (1, [2%float])]).
Proof.
  intros hash.
  apply (@cache_keys_distinct hash 2
           [("a"%string, [1%float]); ("bb"%string, [3%float]);
            ("c"%string, [2%float])]
           (mkEmbeddingCache [(2, [3%float]); (1, [2%float])] 2)).
  reflexivity.
Defined.

(** X4: a cache built with [max_size <= 0] stores nothing: the first [set]
    call finds the cache full and empty at once, [next(iter(...))] raises
    [StopIteration], and so does every run of [set] calls that is not
    empty. *)
Theorem set_without_capacity_raises :
  forall (hash : string -> Z) max_size items,
    max_size <= 0 -> items <> [] ->
    set_all hash (init max_size) items = Raise StopIteration.
Proof.
  intros hash m [|[text embedding] items] Hm Hne; [congruence|].
  simpl. unfold set, init. simpl.
  assert (E : (len (@nil (Z * list float)) >=? m) = true)
    by (apply Z.geb_le; unfold len; simpl; lia).
  now rewrite E.
Qed.

Lemma set_without_capacity_raises_witness :
  set_all (fun s : string => Z.of_nat (String.length s)) (init 0)
    [("a"%string, [1%float])] = Raise StopIteration.
Proof.
  apply set_without_capacity_raises; [lia | discriminate].
Defined.

(** X5: [get_or_compute] memoises: once a call for a text has returned a
    value, a second call for the same text on the cache it left returns the
    same value and the same cache without asking [compute_fn], whatever
    [compute_fn] is then. *)
Theorem get_or_compute_memoises :
  forall (hash : string -> Z) self text compute_fn value self',
    get_or_compute hash self text compute_fn = Ok (value, self') ->
    forall compute_fn',
      get_or_compute hash self' text compute_fn' = Ok (value, self').
Proof.
  intros hash self text f value self' H g. unfold get_or_compute in *.
  destruct (get hash self text) as [cached|] eqn:Eg.
  - injection H as <- <-. now rewrite Eg.
  - destruct (f text) as [embedding|]; simpl in H; [|discriminate].
    destruct (set hash self text embedding) as [self1|] eqn:Es; simpl in H;
      [|discriminate].
    injection H as <- <-.
    now rewrite (get_after_set_lemma hash self text embedding text Es eq_refl).
Qed.

Lemma get_or_compute_memoises_witness :
  let hash := fun s : string => Z.of_nat (String.length s) in
  get_or_compute hash (mkEmbeddingCache [(2, [7%float])] 3) "ab"
    (fun _ => Raise NotImplementedError) =
  Ok ([7%float], mkEmbeddingCache [(2, [7%float])] 3).
Proof.
  intros hash.
  apply (@get_or_compute_memoises hash (init 3) "ab"
           (fun _ => Ok [7%float])).
  reflexivity.
Defined.

End CacheExtras.

(** ** The embedding client: batching *)

Module ClientExtras.

Import Client.
Local Open Scope Z_scope.

Lemma slices_concat {A : Type} (s : nat) :
  (0 < s)%nat ->
  forall (c : nat) (l : list A),
    (List.length l <= c * s)%nat ->
    List.concat (map (fun k => firstn s (skipn (k * s) l)) (seq 0 c)) = l.
Proof.
  intros Hs. induction c as [|c IH]; intros l Hl.
  - destruct l; [reflexivity | simpl in Hl; lia].
  - cbn [seq map List.concat]. rewrite <- seq_shift, map_map.
    change (0 * s)%nat with 0%nat. cbn [skipn].
    transitivity (firstn s l ++ skipn s l); [|apply firstn_skipn].
    f_equal. transitivity
      (List.concat (map (fun k => firstn s (skipn (k * s) (skipn s l)))
                      (seq 0 c))).
    + f_equal. apply map_ext. intros k.
      rewrite skipn_skipn. f_equal. f_equal. lia.
    + apply IH. rewrite length_skipn. simpl in Hl. lia.
Qed.

Lemma batch_count_covers n size :
  0 <= n -> 0 < size -> n <= (n + size - 1) / size * size.
Proof.
  intros Hn Hs.
  pose proof (Z.div_mod (n + size - 1) size ltac:(lia)) as Hd.
  pose proof (Z.mod_pos_bound (n + size - 1) size Hs) as Hm.
  nia.
Qed.

Lemma batch_count_tight n size k :
  0 <= n -> 0 < size -> 0 <= k < (n + size - 1) / size -> k * size < n.
Proof.
  intros Hn Hs Hk.
  pose proof (Z.div_mod (n + size - 1) size ltac:(lia)) as Hd.
  pose proof (Z.mod_pos_bound (n + size - 1) size Hs) as Hm.
  nia.
Qed.

Lemma range_from_zero_positive n size :
  0 < size ->
  range_from_zero n size =
  Ok (map (fun k => Z.of_nat k * size)
        (seq 0 (Z.to_nat ((n + size - 1) / size)))).
Proof.
  intros Hs. unfold range_from_zero.
  destruct (size =? 0) eqn:E0; [apply Z.eqb_eq in E0; lia|].
  destruct (size <? 0) eqn:E1; [apply Z.ltb_lt in E1; lia|].
  reflexivity.
Qed.

Lemma batch_at_nat {A : Type} (texts : list A) k size :
  0 < size ->
  firstn (Z.to_nat size) (skipn (Z.to_nat (Z.of_nat k * size)) texts) =
  firstn (Z.to_nat size) (skipn (k * Z.to_nat size) texts).
Proof.
  intros Hs. now rewrite Z2Nat.inj_mul, Nat2Z.id by lia.
Qed.

(** The batches of [embed], one after the other, are the texts. *)
Lemma batches_concat texts size :
  0 < size ->
  List.concat (map (fun i => batch_at texts i size)
            (map (fun k => Z.of_nat k * size)
               (seq 0 (Z.to_nat ((len texts + size - 1) / size))))) = texts.
Proof.
  intros Hs. rewrite map_map. unfold batch_at.
  rewrite (map_ext _ (fun k => firstn (Z.to_nat size)
                                 (skipn (k * Z.to_nat size) texts)))
    by (intros k; now apply batch_at_nat).
  apply slices_concat; [lia|].
  pose proof (@batch_count_covers (len texts) size) as Hc.
  unfold len in *.
  assert (0 <= (Z.of_nat (List.length texts) + size - 1) / size)
    by (apply Z.div_pos; lia).
  apply Nat2Z.inj_le. rewrite Nat2Z.inj_mul, !Z2Nat.id by lia. lia.
Qed.

Lemma batches_bounded (texts : list string) size :
  0 < size ->
  Forall (fun i => batch_at texts i size <> [] /\
                   len (batch_at texts i size) <= size)
    (map (fun k => Z.of_nat k * size)
       (seq 0 (Z.to_nat ((len texts + size - 1) / size)))).
Proof.
  intros Hs.
  apply Forall_forall. intros i (k & <- & Hk%in_seq)%in_map_iff.
  assert (Hq : 0 <= (len texts + size - 1) / size)
    by (apply Z.div_pos; unfold len; lia).
  assert (Hlt : Z.of_nat k * size < len texts).
  { apply batch_count_tight; unfold len in *; lia. }
  unfold batch_at. split.
  - intros Hnil. apply (f_equal (@List.length _)) in Hnil.
    rewrite length_firstn, length_skipn in Hnil. simpl in Hnil.
    unfold len in Hlt. lia.
  - unfold len. rewrite length_firstn. lia.
Qed.

(** X6: for a positive [batch_size] the loop of [embed] cuts the texts into
    batches that, put one after the other, are the texts again; no batch is
    empty and none has more than [batch_size] texts. *)
Theorem batches_partition_texts :
  forall (texts : list string) size,
    0 < size ->
    exists starts,
      range_from_zero (len texts) size = Ok starts /\
      List.concat (map (fun i => batch_at texts i size) starts) = texts /\
      Forall (fun i => batch_at texts i size <> [] /\
                       len (batch_at texts i size) <= size) starts.
Proof.
  intros texts size Hs. eexists. split; [now apply range_from_zero_positive|].
  split; [now apply batches_concat | now apply batches_bounded].
Qed.

Lemma batches_partition_texts_witness :
  exists starts,
    range_from_zero (len ["a"; "b"; "c"; "d"; "e"]%string) 2 = Ok starts /\
    List.concat (map (fun i => batch_at ["a"; "b"; "c"; "d"; "e"]%string i 2) starts) =
    ["a"; "b"; "c"; "d"; "e"]%string /\
    Forall (fun i => batch_at ["a"; "b"; "c"; "d"; "e"]%string i 2 <> [] /\
                     len (batch_at ["a"; "b"; "c"; "d"; "e"]%string i 2) <= 2)
      starts.
Proof.
  apply (@batches_partition_texts ["a"; "b"; "c"; "d"; "e"]%string 2). lia.
Defined.

Lemma embed_batches_pointwise (f : string -> list float) texts size starts :
  forall acc,
    embed_batches (fun batch => Ok (map f batch)) texts size starts acc =
    Ok (acc ++ map f (List.concat (map (fun i => batch_at texts i size) starts))).
Proof.
  induction starts as [|i starts IH]; intros acc; simpl.
  - now rewrite app_nil_r.
  - rewrite IH, map_app. now rewrite app_assoc.
Qed.

Lemma embed_batches_agree (p p' : list string -> result (list (list float)))
    texts size starts :
  Forall (fun i => p (batch_at texts i size) = p' (batch_at texts i size)) starts ->
  forall acc,
    embed_batches p texts size starts acc = embed_batches p' texts size starts acc.
Proof.
  induction 1 as [|i starts Hi _ IH]; intros acc; simpl; [reflexivity|].
  rewrite Hi. destruct (p' (batch_at texts i size)); simpl; [apply IH | reflexivity].
Qed.

(** Rows of one length make an array. *)
Lemma np_array_one_length (rows : list (list float)) :
  (forall r r', In r rows -> In r' rows -> List.length r = List.length r') ->
  np_array rows = Ok rows.
Proof.
  destruct rows as [|row rest]; [reflexivity|]. intros H. unfold np_array.
  replace (forallb _ rest) with true; [reflexivity|].
  symmetry. apply forallb_forall. intros r Hr. apply Nat.eqb_eq.
  apply H; [now right | now left].
Qed.

(** X7: batching does not show in the result.  With a provider that embeds
    each text of a batch on its own, [embed] with any positive [batch_size]
    gives what [np.array] makes of the embeddings of the texts in order,
    normalised when the configuration says so: a [ValueError] when two
    embeddings differ in length, and when all the embeddings have one length
    the embeddings themselves, or their normalisation. *)
Theorem embed_is_batch_size_independent :
  forall (f : string -> list float) cfg texts,
    0 < batch_size cfg ->
    embed (fun batch => Ok (map f batch)) (mkEmbeddingClient cfg) texts =
    (rows <- np_array (map f texts) ;;
     if normalize cfg then _normalize rows else Ok rows) /\
    ((forall t t', In t texts -> In t' texts ->
        List.length (f t) = List.length (f t')) ->
     embed (fun batch => Ok (map f batch)) (mkEmbeddingClient cfg) texts =
     if normalize cfg then _normalize (map f texts) else Ok (map f texts)).
Proof.
  intros f cfg texts Hs.
  assert (E : embed (fun batch => Ok (map f batch)) (mkEmbeddingClient cfg) texts =
              (rows <- np_array (map f texts) ;;
               if normalize cfg then _normalize rows else Ok rows)).
  { unfold embed. cbn [config].
    rewrite range_from_zero_positive by exact Hs. cbn [bind].
    rewrite embed_batches_pointwise, batches_concat by exact Hs.
    reflexivity. }
  split; [exact E|]. intros Hlen. rewrite E, np_array_one_length; [reflexivity|].
  intros r r' (t & <- & Ht)%in_map_iff (t' & <- & Ht')%in_map_iff.
  now apply Hlen.
Qed.

Lemma embed_is_batch_size_independent_witness :
  let f := fun s : string =>
             if String.eqb s "a" then [3%float; 4%float] else [0%float; 2%float] in
  let g := fun s : string =>
             if String.eqb s "a" then [3%float; 4%float] else [2%float] in
  let cfg := mkEmbeddingConfig "local" "all-MiniLM-L6-v2" 2 2 false in
  embed (fun batch => Ok (map f batch)) (mkEmbeddingClient cfg)
    ["a"; "b"; "c"]%string =
  Ok [[3%float; 4%float]; [0%float; 2%float]; [0%float; 2%float]] /\
  embed (fun batch => Ok (map g batch)) (mkEmbeddingClient cfg)
    ["a"; "b"; "c"]%string = Raise ValueError.
Proof.
  intros f g cfg. split.
  - apply (proj2 (@embed_is_batch_size_independent f cfg ["a"; "b"; "c"]%string
                    eq_refl)).
    intros t t' _ _. unfold f.
    destruct (String.eqb t "a"), (String.eqb t' "a"); reflexivity.
  - exact (proj1 (@embed_is_batch_size_independent g cfg ["a"; "b"; "c"]%string
                    eq_refl)).
Defined.

(** X8: [embed] asks the provider only for batches that are not empty and
    hold at most [batch_size] texts: two providers that agree on such batches
    give the same result. *)
Theorem embed_calls_provider_within_batch_size :
  forall (p p' : list string -> result (list (list float))) cfg texts,
    0 < batch_size cfg ->
    (forall batch, batch <> [] -> len batch <= batch_size cfg ->
       p batch = p' batch) ->
    embed p (mkEmbeddingClient cfg) texts = embed p' (mkEmbeddingClient cfg) texts.
Proof.
  intros p p' cfg texts Hs Hagree. unfold embed. cbn [config].
  rewrite range_from_zero_positive by exact Hs. cbn [bind].
  rewrite (@embed_batches_agree p p'); [reflexivity|].
  eapply Forall_impl; [|apply batches_bounded; exact Hs].
  intros i [Hne Hle]. now apply Hagree.
Qed.

Lemma embed_calls_provider_within_batch_size_witness :
  let cfg := mkEmbeddingConfig "local" "all-MiniLM-L6-v2" 1 2 false in
  let p := fun batch : list string => Ok (map (fun _ => [1%float]) batch) in
  let p' := fun batch : list string =>
              if (len batch <=? 2) && negb (len batch =? 0)
              then Ok (map (fun _ => [1%float]) batch)
              else Raise ValueError in
  embed p (mkEmbeddingClient cfg) ["a"; "b"; "c"]%string =
  embed p' (mkEmbeddingClient cfg) ["a"; "b"; "c"]%string.
Proof.
  intros cfg p p'.
  apply (@embed_calls_provider_within_batch_size p p' cfg ["a"; "b"; "c"]%string).
  - reflexivity.
  - intros batch Hne Hle. unfold p, p'. simpl in Hle.
    apply Z.leb_le in Hle. rewrite Hle.
    destruct batch; [congruence | reflexivity].
Defined.

(** X9: with a negative [batch_size], or with no texts and a [batch_size]
    other than 0, [embed] never asks the provider: it returns the empty
    array, or, when the configuration asks for normalisation, raises the
    [AxisError] of a norm along axis 1 of an array that has one dimension. *)
Theorem embed_without_batches :
  forall (p : list string -> result (list (list float))) cfg texts,
    batch_size cfg < 0 \/ (batch_size cfg <> 0 /\ texts = []) ->
    embed p (mkEmbeddingClient cfg) texts =
    if normalize cfg then Raise AxisError else Ok [].
Proof.
  intros p cfg texts H. unfold embed, range_from_zero. cbn [config].
  destruct (batch_size cfg =? 0) eqn:E0; [apply Z.eqb_eq in E0; lia|].
  destruct (batch_size cfg <? 0) eqn:E1.
  - reflexivity.
  - apply Z.ltb_ge in E1. destruct H as [H|[_ ->]]; [lia|].
    apply Z.eqb_neq in E0.
    replace ((len (@nil string) + batch_size cfg - 1) / batch_size cfg) with 0.
    + reflexivity.
    + unfold len. simpl. symmetry. apply Z.div_small. lia.
Qed.

Lemma embed_without_batches_witness :
  embed (fun _ => Raise NotImplementedError)
    (mkEmbeddingClient (mkEmbeddingConfig "openai" "text-embedding-3-small" 1536 100 true))
    [] = Raise AxisError.
Proof.
  apply (@embed_without_batches (fun _ => Raise NotImplementedError)
           (mkEmbeddingConfig "openai" "text-embedding-3-small" 1536 100 true) []).
  right. split; [discriminate | reflexivity].
Defined.

(** X10: an error of the provider on the first batch is the error of
    [embed]; so the base class, whose [_embed_batch] raises
    [NotImplementedError], raises it for every non-empty list of texts. *)
Theorem embed_raises_provider_error :
  forall (p : list string -> result (list (list float))) e cfg texts,
    0 < batch_size cfg -> texts <> [] ->
    p (batch_at texts 0 (batch_size cfg)) = Raise e ->
    embed p (mkEmbeddingClient cfg) texts = Raise e.
Proof.
  intros p e cfg texts Hs Hne Hp. unfold embed. cbn [config].
  rewrite range_from_zero_positive by exact Hs. cbn [bind].
  destruct (Z.to_nat ((len texts + batch_size cfg - 1) / batch_size cfg))
    as [|c] eqn:Ec.
  - exfalso. destruct texts as [|t texts]; [congruence|].
    pose proof (@batch_count_covers (len (t :: texts)) (batch_size cfg)) as Hc.
    assert (0 <= (len (t :: texts) + batch_size cfg - 1) / batch_size cfg)
      by (apply Z.div_pos; unfold len; lia).
    unfold len in *. simpl List.length in *. nia.
  - cbn [seq map embed_batches]. change (Z.of_nat 0 * batch_size cfg) with 0.
    now rewrite Hp.
Qed.

Lemma embed_raises_provider_error_witness :
  embed (fun _ => Raise NotImplementedError)
    (mkEmbeddingClient (mkEmbeddingConfig "openai" "text-embedding-3-small" 1536 100 true))
    ["Hello world"%string] = Raise NotImplementedError.
Proof.
  apply embed_raises_provider_error; [reflexivity | discriminate | reflexivity].
Defined.

End ClientExtras.

(** ** Vector math: symmetry, shapes and zero vectors *)

Module FloatFacts.

Local Open Scope float_scope.

Lemma SFmul_comm prec emax x y : SFmul prec emax x y = SFmul prec emax y x.
Proof.
  destruct x as [sx|sx| |sx mx ex], y as [sy|sy| |sy my ey]; simpl;
    try reflexivity; try (now rewrite xorb_comm).
  now rewrite xorb_comm, Pos.mul_comm, Z.add_comm.
Qed.

Lemma mul_comm x y : x * y = y * x.
Proof.
  rewrite <- (SF2Prim_Prim2SF (x * y)), <- (SF2Prim_Prim2SF (y * x)).
  rewrite !mul_spec. unfold SF64mul. now rewrite SFmul_comm.
Qed.

Lemma add_nan_r x : x + nan = nan.
Proof.
  rewrite <- (SF2Prim_Prim2SF (x + nan)), add_spec.
  change (Prim2SF nan) with S754_nan. unfold SF64add.
  now destruct (Prim2SF x).
Qed.

Lemma mul_nan_l x : nan * x = nan.
Proof.
  rewrite <- (SF2Prim_Prim2SF (nan * x)), mul_spec.
  change (Prim2SF nan) with S754_nan. unfold SF64mul.
  now destruct (Prim2SF x).
Qed.

Lemma leb_nan_r x : (x <=? nan) = false.
Proof.
  rewrite leb_spec. change (Prim2SF nan) with S754_nan.
  unfold SFleb. now destruct (Prim2SF x).
Qed.

End FloatFacts.

Module VectorExtras.

Import VectorMath.
Local Open Scope float_scope.

Lemma dot_aligned_from_comm a :
  forall b acc,
    fold_left (fun acc p => acc + fst p * snd p) (combine a b) acc =
    fold_left (fun acc p => acc + fst p * snd p) (combine b a) acc.
Proof.
  induction a as [|x a IH]; intros [|y b] acc; simpl; try reflexivity.
  now rewrite IH, FloatFacts.mul_comm.
Qed.

Lemma dot_aligned_comm a b : dot_aligned a b = dot_aligned b a.
Proof. apply dot_aligned_from_comm. Qed.

Lemma np_dot_comm a b : np_dot a b = np_dot b a.
Proof.
  unfold np_dot. rewrite (Nat.eqb_sym (List.length b)).
  now rewrite dot_aligned_comm.
Qed.

(** X11: [dot_product] and [cosine_similarity] are symmetric in their two
    arguments, bit for bit and error for error. *)
Theorem similarity_is_symmetric :
  forall a b,
    dot_product a b = dot_product b a /\
    cosine_similarity a b = cosine_similarity b a.
Proof.
  intros a b. unfold dot_product, cosine_similarity. split.
  - apply np_dot_comm.
  - rewrite (np_dot_comm a b). destruct (np_dot b a); simpl; [|reflexivity].
    now rewrite (FloatFacts.mul_comm (norm a)).
Qed.

Lemma dot_aligned_zeros n : dot_aligned (repeat 0 n) (repeat 0 n) = 0.
Proof.
  unfold dot_aligned. induction n as [|n IH]; simpl; [reflexivity|].
  change (0 + 0 * 0) with 0. exact IH.
Qed.

Lemma norm_zeros n : norm (repeat 0 n) = 0.
Proof. unfold norm. now rewrite dot_aligned_zeros. Qed.

Lemma dot_aligned_nan_from n :
  forall v, fold_left (fun acc p => acc + fst p * snd p)
              (combine (repeat nan n) v) nan = nan.
Proof.
  induction n as [|n IH]; intros [|x v]; simpl; try reflexivity.
  now rewrite FloatFacts.mul_nan_l, FloatFacts.add_nan_r.
Qed.

Lemma dot_aligned_nan n v :
  List.length v = S n -> dot_aligned (repeat nan (S n)) v = nan.
Proof.
  destruct v as [|x v]; [discriminate|]. intros _. unfold dot_aligned. simpl.
  rewrite FloatFacts.mul_nan_l, FloatFacts.add_nan_r.
  apply dot_aligned_nan_from.
Qed.

Lemma mat_vec_aligned m v :
  Forall (fun row => List.length row = List.length v) m ->
  mat_vec m v = Ok (map (fun row => dot_aligned row v) m).
Proof.
  intros H. unfold mat_vec.
  replace (forallb _ m) with true; [reflexivity|].
  symmetry. apply forallb_forall. intros row Hrow.
  apply Nat.eqb_eq. now apply (proj1 (Forall_forall _ _) H).
Qed.

Lemma cosine_similarity_matrix_aligned E q :
  Forall (fun row => List.length row = List.length q) E ->
  cosine_similarity_matrix E q =
  Ok (map (fun row => dot_aligned (scale_div row (norm row))
                        (scale_div q (norm q))) E).
Proof.
  intros H. unfold cosine_similarity_matrix. rewrite mat_vec_aligned.
  - now rewrite map_map.
  - apply Forall_forall. intros row (row0 & <- & Hin)%in_map_iff.
    unfold scale_div. rewrite !length_map.
    now apply (proj1 (Forall_forall _ _) H).
Qed.




(** X13: a candidate row of zeros, of any dimension but 0, scores NaN
    against every query of its dimension: its norm is 0, the row divided by it
    is NaN throughout, and the NaN goes through the dot product. *)
Theorem zero_row_scores_nan :
  forall E q i n,
    nth_error E i = Some (repeat 0 (S n)) ->
    Forall (fun row => List.length row = List.length q) E ->
    exists sims,
      cosine_similarity_matrix E q = Ok sims /\
      nth_error sims i = Some nan.
Proof.
  intros E q i n Hi Hall.
  rewrite cosine_similarity_matrix_aligned by exact Hall.
  eexists. split; [reflexivity|].
  rewrite nth_error_map, Hi. cbn [option_map]. f_equal.
  rewrite norm_zeros. unfold scale_div at 1. rewrite map_repeat.
  change (0 / 0) with nan.
  apply dot_aligned_nan. unfold scale_div. rewrite length_map.
  apply nth_error_In in Hi.
  rewrite <- (proj1 (Forall_forall _ _) Hall _ Hi).
  apply repeat_length.
Qed.

Lemma zero_row_scores_nan_witness :
  exists sims,
    cosine_similarity_matrix [[1; 2]; [0; 0]] [3; 4] = Ok sims /\
    nth_error sims 1 = Some nan.
Proof.
  apply (@zero_row_scores_nan [[1; 2]; [0; 0]] [3; 4] 1 1).
  - reflexivity.
  - repeat constructor.
Defined.

(** X14: [_normalize] on an array with at least one row returns an array of
    the same shape, and a row of zeros comes back as a row of zeros: the
    norm is kept at or above 1e-10, so nothing is divided by 0. *)
Theorem normalize_keeps_shape_and_zero_rows :
  forall E,
    E <> [] ->
    exists N,
      Client._normalize E = Ok N /\
      List.length N = List.length E /\
      forall i row,
        nth_error E i = Some row ->
        exists row',
          nth_error N i = Some row' /\
          List.length row' = List.length row /\
          (row = repeat 0 (List.length row) -> row' = row).
Proof.
  intros E HE. destruct E as [|row0 E']; [congruence|].
  unfold Client._normalize. eexists. split; [reflexivity|].
  split; [apply length_map|].
  intros i row Hi. rewrite nth_error_map, Hi. cbn [option_map].
  eexists. split; [reflexivity|]. unfold scale_div.
  split; [apply length_map|].
  intros Hz. rewrite Hz. generalize (List.length row). intros k.
  rewrite norm_zeros.
  change (Client.np_maximum 0 Client.eps) with Client.eps.
  rewrite map_repeat. now change (0 / Client.eps) with 0.
Qed.

Lemma normalize_keeps_shape_and_zero_rows_witness :
  exists N,
    Client._normalize [[3; 4]; [0; 0]] = Ok N /\
    List.length N = 2%nat /\
    forall i row,
      nth_error [[3; 4]; [0; 0]] i = Some row ->
      exists row',
        nth_error N i = Some row' /\
        List.length row' = List.length row /\
        (row = repeat 0 (List.length row) -> row' = row).
Proof.
  apply (@normalize_keeps_shape_and_zero_rows [[3; 4]; [0; 0]]).
  discriminate.
Defined.

End VectorExtras.

(** ** Similarity search: which candidates come back *)

Module SearchExtras.

Import Search SearchFacts.
Local Open Scope float_scope.

Lemma insert_index_NoDup v i acc :
  NoDup acc -> ~ In i acc -> NoDup (insert_index v i acc).
Proof.
  induction acc as [|j acc IH]; simpl; intros Hnd Hout.
  - constructor; [intros [] | constructor].
  - destruct (np_less (item v i) (item v j)).
    + inversion Hnd as [|? ? Hj Hrest]; subst. constructor.
      * rewrite insert_index_In. intros [->|Hin]; tauto.
      * apply IH; tauto.
    + constructor; [exact Hout | exact Hnd].
Qed.

(** The descending order holds every index once. *)
Lemma sorted_prefix_rev_indices v n :
  let l := sorted_prefix_rev v (seq 0 n) in
  NoDup l /\ forall x, In x l <-> (x < n)%nat.
Proof.
  unfold sorted_prefix_rev. induction n as [|n [Hnd Hin]].
  - split; [constructor | simpl; intros x; split; [tauto | lia]].
  - cbv zeta. rewrite seq_S, fold_left_app. simpl. split.
    + apply insert_index_NoDup; [exact Hnd|]. rewrite Hin. lia.
    + intros x. rewrite insert_index_In, Hin. lia.
Qed.

Lemma cosine_similarity_matrix_length E q sims :
  VectorMath.cosine_similarity_matrix E q = Ok sims ->
  List.length sims = List.length E.
Proof.
  unfold VectorMath.cosine_similarity_matrix, VectorMath.mat_vec.
  destruct (forallb _ _); [|discriminate].
  intros [= <-]. now rewrite !length_map.
Qed.

Lemma NoDup_firstn {A : Type} n (l : list A) : NoDup l -> NoDup (firstn n l).
Proof.
  intros H. revert n. induction H as [|a l Ha Hl IH]; intros [|n]; simpl;
    try constructor; auto.
  intros Hin. apply Ha.
  rewrite <- (firstn_skipn n l). apply in_or_app. now left.
Qed.

Lemma NoDup_map_of_nat (l : list nat) : NoDup l -> NoDup (map Z.of_nat l).
Proof.
  induction 1 as [|a l Ha Hl IH]; simpl; constructor; [|exact IH].
  intros (b & Hb & Hin)%in_map_iff. apply Nat2Z.inj in Hb. now subst.
Qed.

Lemma StronglySorted_app_order {A : Type} (R : A -> A -> Prop) l1 l2 x y :
  StronglySorted R (l1 ++ l2) -> In x l1 -> In y l2 -> R x y.
Proof.
  induction l1 as [|a l1 IH]; simpl; intros Hs Hx Hy; [tauto|].
  inversion Hs as [|? ? Hrest Ha]; subst.
  destruct Hx as [->|Hx]; [|now apply IH].
  apply (proj1 (Forall_forall _ _) Ha). apply in_or_app. now right.
Qed.

Lemma result_indices sims thr n (results : list SearchResult) :
  map (fun r => (index r, score r)) results =
  map (fun i => (Z.of_nat i, item sims i)) (selected sims thr n) ->
  map index results = map Z.of_nat (selected sims thr n).
Proof.
  intros H. apply (f_equal (map fst)) in H.
  rewrite !map_map in H. exact H.
Qed.

Lemma in_results sims thr n (results : list SearchResult) r :
  map (fun r => (index r, score r)) results =
  map (fun i => (Z.of_nat i, item sims i)) (selected sims thr n) ->
  In r results ->
  exists i, In i (selected sims thr n) /\
            index r = Z.of_nat i /\ score r = item sims i.
Proof.
  intros H Hr. apply (in_map (fun r => (index r, score r))) in Hr.
  rewrite H in Hr. apply in_map_iff in Hr as (i & Ei & Hi).
  injection Ei as E1 E2. eauto.
Qed.

Lemma selected_spec sims thr n i :
  In i (selected sims thr n) <->
  In i (firstn n (rev (argsort sims))) /\ (item sims i <? thr) = false.
Proof.
  unfold selected. rewrite filter_In, negb_true_iff. tauto.
Qed.

(** X15: every result of [search_similar] is a candidate: its index lies in
    [0 .. len(embeddings) - 1], its score is the similarity computed for
    that index, and no index is returned twice. *)
Theorem search_similar_results_are_candidates :
  forall q E texts top_k thr results,
    search_similar q E texts top_k thr = Ok results ->
    exists sims,
      VectorMath.cosine_similarity_matrix E q = Ok sims /\
      List.length sims = List.length E /\
      NoDup (map index results) /\
      Forall (fun r => (0 <= index r < len E)%Z /\
                       score r = item sims (Z.to_nat (index r))) results.
Proof.
  intros q E texts top_k thr results H.
  destruct (search_similar_spec _ _ _ _ _ H) as (sims & n & Hsims & _ & Hmap).
  pose proof (cosine_similarity_matrix_length _ _ Hsims) as Hlen.
  fold (selected sims thr n) in Hmap.
  destruct (sorted_prefix_rev_indices sims (List.length sims)) as [Hnd Hin].
  rewrite <- argsort_reversed in Hnd, Hin.
  exists sims. repeat split; auto.
  - rewrite (result_indices _ _ _ _ Hmap).
    apply NoDup_map_of_nat.
    unfold selected. apply NoDup_filter, NoDup_firstn, Hnd.
  - apply Forall_forall. intros r Hr.
    destruct (in_results _ _ _ _ _ Hmap Hr) as (i & Hi & Ei & Es).
    apply selected_spec in Hi as [Hi _].
    assert (Hlt : (i < List.length sims)%nat).
    { apply Hin. rewrite <- (firstn_skipn n (rev (argsort sims))).
      apply in_or_app. now left. }
    rewrite Ei, Nat2Z.id. unfold len. split; [lia | exact Es].
Qed.

Lemma search_similar_results_are_candidates_witness :
  exists sims,
    VectorMath.cosine_similarity_matrix [[1; 0]; [0; 1]; [1; 0]] [1; 0] = Ok sims /\
    List.length sims = 3%nat /\
    NoDup (map index [mkSearchResult 2 1 None None; mkSearchResult 0 1 None None]) /\
    Forall (fun r => (0 <= index r < 3)%Z /\
                     score r = item sims (Z.to_nat (index r)))
      [mkSearchResult 2 1 None None; mkSearchResult 0 1 None None].
Proof.
  apply (@search_similar_results_are_candidates [1; 0]
           [[1; 0]; [0; 1]; [1; 0]] None 2 0.5).
  reflexivity.
Defined.

(** X16: the results are the candidates that rank highest in the order
    NumPy sorts by, in which a NaN ranks above every number.  A candidate
    whose score is not below the threshold and whose index is not returned
    does not rank above any returned result; so its score is at most that of
    a returned result whose score is not NaN.  A NaN score is no best match
    and still comes first: against the zero row and the query itself, with
    [top_k] 1, the zero row is returned and the perfect match is left out. *)
Theorem search_similar_returns_the_highest_ranked :
  (forall q E texts top_k thr results sims r j,
     search_similar q E texts top_k thr = Ok results ->
     VectorMath.cosine_similarity_matrix E q = Ok sims ->
     In r results ->
     (j < List.length E)%nat ->
     (item sims j <? thr) = false ->
     ~ In (Z.of_nat j) (map index results) ->
     np_less (score r) (item sims j) = false /\
     (is_nan (score r) = false -> (item sims j <=? score r) = true)) /\
  VectorMath.cosine_similarity_matrix [[0; 0]; [1; 0]] [1; 0] = Ok [nan; 1] /\
  search_similar [1; 0] [[0; 0]; [1; 0]] None 1 0 =
  Ok [mkSearchResult 0 nan None None].
Proof.
  split; [|split; reflexivity].
  intros q E texts top_k thr results sims r j H Hsims Hr Hj Hpass Hout.
  destruct (search_similar_spec _ _ _ _ _ H) as (sims' & n & Hsims' & _ & Hmap).
  rewrite Hsims in Hsims'. injection Hsims' as <-.
  pose proof (cosine_similarity_matrix_length _ _ Hsims) as Hlen.
  fold (selected sims thr n) in Hmap.
  destruct (sorted_prefix_rev_indices sims (List.length sims)) as [_ Hin].
  destruct (sorted_prefix_rev_spec sims (List.length sims)) as [Hsorted _].
  rewrite <- argsort_reversed in Hin, Hsorted.
  destruct (in_results _ _ _ _ _ Hmap Hr) as (i & Hi & Ei & Es).
  apply selected_spec in Hi as [Hi _].
  rewrite (result_indices _ _ _ _ Hmap) in Hout.
  assert (Hj' : In j (skipn n (rev (argsort sims)))).
  { assert (Hall : In j (rev (argsort sims))) by (apply Hin; lia).
    rewrite <- (firstn_skipn n (rev (argsort sims))) in Hall.
    apply in_app_or in Hall as [Hfirst|Hrest]; [|exact Hrest].
    exfalso. apply Hout. apply in_map. now apply selected_spec. }
  rewrite <- (firstn_skipn n (rev (argsort sims))) in Hsorted.
  destruct (StronglySorted_app_order _ _ _ _ Hsorted Hi Hj') as [Hle _].
  rewrite Es. split; [exact Hle|]. intros Hnum.
  unfold np_less in Hle. apply orb_false_iff in Hle as [Hlt Hnan].
  rewrite Hnum in Hnan. cbn [negb] in Hnan. rewrite andb_true_r in Hnan.
  now apply FloatOrder.not_ltb_leb.
Qed.

Lemma search_similar_returns_the_highest_ranked_witness :
  np_less (score (mkSearchResult 0 1 None None)) (item [1; 0; 0] 2) = false /\
  (item [1; 0; 0] 2 <=? score (mkSearchResult 0 1 None None)) = true.
Proof.
  destruct (proj1 search_similar_returns_the_highest_ranked
              [1; 0] [[1; 0]; [0; 1]; [0; 2]] None 1%Z 0
              [mkSearchResult 0 1 None None]
              [1; 0; 0] (mkSearchResult 0 1 None None) 2%nat)
    as [Hrank Hle].
  - reflexivity.
  - reflexivity.
  - now left.
  - simpl. lia.
  - reflexivity.
  - simpl. intros [H|[]]. discriminate.
  - split; [exact Hrank | apply Hle; reflexivity].
Defined.

(** X17: nothing is lost when [top_k] is at least the number of candidates:
    every candidate whose score is not below the threshold is returned. *)
Theorem search_similar_is_complete :
  forall q E texts top_k thr results sims j,
    (len E <= top_k)%Z ->
    search_similar q E texts top_k thr = Ok results ->
    VectorMath.cosine_similarity_matrix E q = Ok sims ->
    (j < List.length E)%nat ->
    (item sims j <? thr) = false ->
    In (Z.of_nat j) (map index results).
Proof.
  intros q E texts top_k thr results sims j Hk H Hsims Hj Hpass.
  destruct (search_similar_spec _ _ _ _ _ H) as (sims' & n & Hsims' & Hn & Hmap).
  rewrite Hsims in Hsims'. injection Hsims' as <-.
  pose proof (cosine_similarity_matrix_length _ _ Hsims) as Hlen.
  fold (selected sims thr n) in Hmap.
  destruct (sorted_prefix_rev_indices sims (List.length sims)) as [_ Hin].
  destruct (sorted_prefix_rev_spec sims (List.length sims)) as (_ & _ & Hl).
  rewrite <- argsort_reversed in Hin, Hl.
  rewrite (result_indices _ _ _ _ Hmap). apply in_map, selected_spec.
  split; [|exact Hpass].
  rewrite firstn_all2; [apply Hin; lia|].
  unfold len in Hk. rewrite Hn by lia. lia.
Qed.

Lemma search_similar_is_complete_witness :
  In (Z.of_nat 1)
    (map index [mkSearchResult 0 1 None None; mkSearchResult 1 0 None None]).
Proof.
  apply (@search_similar_is_complete [1; 0] [[1; 0]; [0; 1]] None 5 0
           [mkSearchResult 0 1 None None; mkSearchResult 1 0 None None]
           [1; 0] 1).
  - unfold len. simpl. lia.
  - reflexivity.
  - reflexivity.
  - simpl. lia.
  - reflexivity.
Defined.

Lemma collect_texts sims texts thr idxs results :
  collect sims texts thr idxs = Ok results ->
  Forall (fun r => text_at texts (Z.to_nat (index r)) = Ok (text r) /\
                   metadata r = None) results.
Proof.
  revert results. induction idxs as [|i idxs IH]; simpl; intros results H.
  - injection H as <-. constructor.
  - destruct (item sims i <? thr); [now apply IH|].
    destruct (text_at texts i) as [t|] eqn:Et; simpl in H; [|discriminate].
    destruct (collect sims texts thr idxs) as [rest|]; simpl in H;
      [|discriminate].
    injection H as <-. constructor; [|now apply IH].
    simpl. now rewrite Nat2Z.id.
Qed.

(** X18: the text of a result is the text at the result's index.  When no
    texts, or an empty list of texts, is passed, every result has no text;
    otherwise every result carries [texts[index]].  No result has
    metadata. *)
Theorem search_similar_texts_follow_indices :
  forall q E texts top_k thr results,
    search_similar q E texts top_k thr = Ok results ->
    Forall (fun r =>
              metadata r = None /\
              match texts with
              | None | Some [] => text r = None
              | Some l =>
                  text r = nth_error l (Z.to_nat (index r)) /\ text r <> None
              end) results.
Proof.
  intros q E texts top_k thr results H. unfold search_similar in H.
  destruct (VectorMath.cosine_similarity_matrix E q) as [sims|]; simpl in H;
    [|discriminate].
  apply collect_texts in H. eapply Forall_impl; [|exact H].
  intros r [Ht Hm]. split; [exact Hm|]. unfold text_at in Ht.
  destruct texts as [[|t l]|]; try (now injection Ht as <-).
  destruct (nth_error (t :: l) (Z.to_nat (index r))) as [t'|];
    [|discriminate].
  injection Ht as <-. split; [reflexivity | discriminate].
Qed.

Lemma search_similar_texts_follow_indices_witness :
  Forall (fun r =>
            metadata r = None /\
            text r = nth_error ["x"; "y"]%string (Z.to_nat (index r)) /\
            text r <> None)
    [mkSearchResult 1 1 (Some "y"%string) None].
Proof.
  apply (@search_similar_texts_follow_indices [0; 1] [[1; 0]; [0; 1]]
           (Some ["x"; "y"]%string) 5 0.5).
  reflexivity.
Defined.





End SearchExtras.

(** ** Deduplication: what is kept and what is dropped *)

Module DedupExtras.

Import Dedup DedupFacts.
Local Open Scope float_scope.

Lemma is_duplicate_spec E thr i kept b :
  is_duplicate E thr i kept = Ok b ->
  if b
  then exists j sim,
         In j kept /\
         VectorMath.cosine_similarity (nth i E []) (nth j E []) = Ok sim /\
         (thr <=? sim) = true
  else forall j, In j kept ->
         exists sim,
           VectorMath.cosine_similarity (nth i E []) (nth j E []) = Ok sim /\
           (thr <=? sim) = false.
Proof.
  induction kept as [|j kept IH]; simpl; intros H.
  - injection H as <-. intros j [].
  - destruct (VectorMath.cosine_similarity (nth i E []) (nth j E []))
      as [sim|] eqn:Es; simpl in H; [|discriminate].
    destruct (thr <=? sim) eqn:Et.
    + injection H as <-. exists j, sim. auto.
    + specialize (IH H). destruct b.
      * destruct IH as (j' & sim' & Hin & Hs & Ht). exists j', sim'. auto.
      * intros j' [<-|Hin]; [eauto | now apply IH].
Qed.

Lemma StronglySorted_snoc (l : list nat) k :
  StronglySorted lt l -> Forall (fun j => (j < k)%nat) l ->
  StronglySorted lt (l ++ [k]).
Proof.
  induction 1 as [|a l Hs IH Ha]; intros Hlt; simpl.
  - repeat constructor.
  - inversion Hlt as [|? ? Hak Hrest]; subst.
    constructor; [now apply IH|].
    apply Forall_app. split; [exact Ha | now repeat constructor].
Qed.

Lemma kept_invariant_step E thr k kept b :
  kept_invariant E thr k kept ->
  is_duplicate E thr k kept = Ok b ->
  kept_invariant E thr (S k) (if b then kept else kept ++ [k]).
Proof.
  intros (Hs & Hlt & Hpair & Hdrop) Hb. apply is_duplicate_spec in Hb.
  pose proof (proj1 (Forall_forall _ _) Hlt) as Hlt'.
  destruct b.
  - destruct Hb as (j & sim & Hj & Hsim & Ht).
    split; [exact Hs|]. split; [|split; [exact Hpair|]].
    + eapply Forall_impl; [|exact Hlt]. simpl. lia.
    + intros i Hi Hout. destruct (Nat.eq_dec i k) as [->|Hne].
      * exists j, sim. repeat split; auto.
      * apply Hdrop; [lia | exact Hout].
  - split; [now apply StronglySorted_snoc|]. split; [|split].
    + apply Forall_app. split.
      * eapply Forall_impl; [|exact Hlt]. simpl. lia.
      * repeat constructor.
    + intros i j Hi Hj Hji.
      apply in_app_or in Hi as [Hi|[<-|[]]];
        apply in_app_or in Hj as [Hj|[<-|[]]].
      * now apply Hpair.
      * apply Hlt' in Hi. lia.
      * now apply Hb.
      * lia.
    + intros i Hi Hout.
      assert (Hne : i <> k) by (intros ->; apply Hout, in_or_app; right; now left).
      destruct (Hdrop i) as (j & sim & Hj & Hji & Hsim & Ht); [lia| |].
      * intros Hin. apply Hout, in_or_app. now left.
      * exists j, sim. repeat split; auto. apply in_or_app. now left.
Qed.

Lemma dedup_loop_invariant E thr m :
  forall k kept result,
    kept_invariant E thr k kept ->
    dedup_loop E thr (seq k m) kept = Ok result ->
    kept_invariant E thr (k + m) result.
Proof.
  induction m as [|m IH]; intros k kept result Hinv H; simpl in H.
  - injection H as <-. now rewrite Nat.add_0_r.
  - destruct (is_duplicate E thr k kept) as [b|] eqn:Eb; simpl in H;
      [|discriminate].
    replace (k + S m)%nat with (S k + m)%nat by lia.
    apply (IH (S k) _ _ (kept_invariant_step Hinv Eb) H).
Qed.

Lemma deduplicate_invariant E thr kept :
  deduplicate_by_similarity E thr = Ok kept ->
  kept_invariant E thr (List.length E) kept.
Proof.
  intros H.
  apply (@dedup_loop_invariant E thr (List.length E) 0%nat [] kept); [|exact H].
  split; [constructor|]. split; [constructor|]. split.
  - intros i j [].
  - intros i Hi. lia.
Qed.

(** X20: the indices [deduplicate_by_similarity] returns are strictly
    increasing and all below the number of rows. *)
Theorem deduplicate_indices_increase :
  forall E thr kept,
    deduplicate_by_similarity E thr = Ok kept ->
    StronglySorted lt kept /\
    Forall (fun j => (j < List.length E)%nat) kept.
Proof.
  intros E thr kept H.
  destruct (deduplicate_invariant _ _ H) as (Hs & Hlt & _). now split.
Qed.

Lemma deduplicate_indices_increase_witness :
  StronglySorted lt [0%nat; 2%nat] /\
  Forall (fun j => (j < 3)%nat) [0%nat; 2%nat].
Proof.
  apply (@deduplicate_indices_increase [[1; 0]; [2; 0]; [0; 1]] 0.5 [0%nat; 2%nat]).
  reflexivity.
Defined.

(** X21: no two kept rows are near-duplicates: for two indices it returns,
    the cosine similarity of their rows was computed and is not at or above
    the threshold. *)
Theorem deduplicate_keeps_no_near_duplicates :
  forall E thr kept i j,
    deduplicate_by_similarity E thr = Ok kept ->
    In i kept -> In j kept -> (j < i)%nat ->
    exists sim,
      VectorMath.cosine_similarity (nth i E []) (nth j E []) = Ok sim /\
      (thr <=? sim) = false.
Proof.
  intros E thr kept i j H Hi Hj Hji.
  destruct (deduplicate_invariant _ _ H) as (_ & _ & Hpair & _).
  now apply Hpair.
Qed.

Lemma deduplicate_keeps_no_near_duplicates_witness :
  exists sim,
    VectorMath.cosine_similarity
      (nth 2 [[1; 0]; [2; 0]; [0; 1]] []) (nth 0 [[1; 0]; [2; 0]; [0; 1]] []) =
    Ok sim /\
    (0.5 <=? sim) = false.
Proof.
  apply (@deduplicate_keeps_no_near_duplicates [[1; 0]; [2; 0]; [0; 1]] 0.5
           [0%nat; 2%nat] 2 0).
  - reflexivity.
  - right. now left.
  - now left.
  - lia.
Defined.

(** X22: a row is dropped only for a reason: every index that is not
    returned has an earlier returned index whose row is at or above the
    threshold in cosine similarity with it. *)
Theorem deduplicate_drops_only_near_duplicates :
  forall E thr kept i,
    deduplicate_by_similarity E thr = Ok kept ->
    (i < List.length E)%nat -> ~ In i kept ->
    exists j sim,
      In j kept /\ (j < i)%nat /\
      VectorMath.cosine_similarity (nth i E []) (nth j E []) = Ok sim /\
      (thr <=? sim) = true.
Proof.
  intros E thr kept i H Hi Hout.
  destruct (deduplicate_invariant _ _ H) as (_ & _ & _ & Hdrop).
  now apply Hdrop.
Qed.

Lemma deduplicate_drops_only_near_duplicates_witness :
  exists j sim,
    In j [0%nat; 2%nat] /\ (j < 1)%nat /\
    VectorMath.cosine_similarity
      (nth 1 [[1; 0]; [2; 0]; [0; 1]] []) (nth j [[1; 0]; [2; 0]; [0; 1]] []) =
    Ok sim /\
    (0.5 <=? sim) = true.
Proof.
  apply (@deduplicate_drops_only_near_duplicates [[1; 0]; [2; 0]; [0; 1]] 0.5
           [0%nat; 2%nat] 1).
  - reflexivity.
  - simpl. lia.
  - simpl. intros [H|[H|[]]]; discriminate.
Defined.

(** X23: rows of zeros are never taken for duplicates of one another: the
    cosine similarity of two of them is NaN, which is not at or above any
    threshold, so from an array of [m] equal rows of zeros all [m] indices
    come back. *)
Theorem deduplicate_keeps_zero_rows :
  forall n m thr,
    deduplicate_by_similarity (repeat (repeat 0 n) m) thr = Ok (seq 0 m).
Proof.
  intros n m thr. unfold deduplicate_by_similarity. rewrite repeat_length.
  apply (@dedup_loop_all (repeat (repeat 0 n) m) thr m 0).
  intros i j Hij. exists nan.
  rewrite !nth_repeat_lt by lia.
  unfold VectorMath.cosine_similarity, VectorMath.np_dot.
  rewrite Nat.eqb_refl. cbn [bind].
  rewrite VectorExtras.norm_zeros, VectorExtras.dot_aligned_zeros.
  split; [reflexivity | apply FloatFacts.leb_nan_r].
Qed.

End DedupExtras.

(** ** Text chunking: splitting, joining and what the chunks hold *)

Module StringFacts.

Local Open Scope string_scope.

Lemma append_nil_r s : s ++ "" = s.
Proof. induction s as [|c s IH]; simpl; [reflexivity | now rewrite IH]. Qed.

Lemma append_assoc s t u : (s ++ t) ++ u = s ++ (t ++ u).
Proof. induction s as [|c s IH]; simpl; [reflexivity | now rewrite IH]. Qed.

Lemma length_append s t :
  String.length (s ++ t) = (String.length s + String.length t)%nat.
Proof. induction s as [|c s IH]; simpl; [reflexivity | now rewrite IH]. Qed.

Lemma starts_with_prefix p :
  forall a b,
    PyStr.starts_with p (a ++ b) = true ->
    String.length p = String.length a -> p = a.
Proof.
  induction p as [|x p IH]; intros [|y a] b H Hl; simpl in *;
    try discriminate; [reflexivity|].
  apply andb_true_iff in H as [Hxy Hp]. apply Ascii.eqb_eq in Hxy. subst y.
  f_equal. apply (IH a b); [exact Hp | lia].
Qed.

Lemma starts_with_length p :
  forall s, PyStr.starts_with p s = true ->
            (String.length p <= String.length s)%nat.
Proof.
  induction p as [|x p IH]; intros [|y s] H; simpl in *; try discriminate;
    try lia.
  apply andb_true_iff in H as [_ Hp]. apply IH in Hp. lia.
Qed.

Lemma split_scan_cons sep s :
  forall skip current,
    exists x l, PyStr.split_scan sep s skip current = x :: l.
Proof.
  induction s as [|c s IH]; intros skip current; cbn [PyStr.split_scan];
    [eauto|].
  destruct skip as [|k]; [|apply IH].
  destruct (PyStr.starts_with sep (String c s)); [eauto | apply IH].
Qed.

Lemma join_cons sep x y l :
  PyStr.join sep (x :: y :: l) = x ++ sep ++ PyStr.join sep (y :: l).
Proof. reflexivity. Qed.

(** Joining what the scan returns gives back what was read: the piece in
    hand, then the text behind the rest of a separator being passed. *)
Lemma split_scan_join sep :
  sep <> "" ->
  forall s skip current,
    (skip <= String.length s)%nat ->
    exists passed rest,
      s = passed ++ rest /\ String.length passed = skip /\
      PyStr.join sep (PyStr.split_scan sep s skip current) = current ++ rest.
Proof.
  intros Hsep. induction s as [|c s IH]; intros skip current Hskip.
  - exists "", "". simpl in *. assert (skip = 0%nat) by lia. subst.
    repeat split. simpl. now rewrite append_nil_r.
  - destruct skip as [|k].
    + exists "", (String c s). repeat split.
      cbn [PyStr.split_scan].
      destruct (PyStr.starts_with sep (String c s)) eqn:Es.
      * pose proof (starts_with_length _ _ Es) as Hlen.
        destruct sep as [|x sep']; [congruence|].
        replace (String.length (String x sep') - 1)%nat
          with (String.length sep') by (simpl; lia).
        simpl String.length in Hlen.
        destruct (IH (String.length sep') "") as (passed & rest & Hs & Hp & Hj);
          [lia|].
        destruct (split_scan_cons (String x sep') s (String.length sep') "")
          as (y & l & Ey).
        rewrite Ey in *. rewrite join_cons, Hj. subst s.
        change (String c (passed ++ rest)) with (String c passed ++ rest) in Es.
        apply starts_with_prefix in Es; [|simpl; lia].
        rewrite Es. reflexivity.
      * destruct (IH 0%nat (current ++ String c "")) as (passed & rest & Hs & Hp & Hj);
          [lia|].
        destruct passed; [|discriminate]. simpl in Hs. subst rest.
        rewrite Hj, append_assoc. reflexivity.
    + destruct (IH k current) as (passed & rest & Hs & Hp & Hj);
        [simpl in Hskip; lia|].
      exists (String c passed), rest. subst s. repeat split.
      * simpl. now rewrite Hp.
      * exact Hj.
Qed.

Lemma split_join text sep paragraphs :
  PyStr.split text sep = Ok paragraphs ->
  PyStr.join sep paragraphs = text.
Proof.
  intros H. unfold PyStr.split in H.
  destruct sep as [|x sep']; [discriminate|]. injection H as <-.
  destruct (@split_scan_join (String x sep') ltac:(discriminate)
              text 0%nat "" ltac:(lia))
    as (passed & rest & Hs & Hp & Hj).
  destruct passed; [|discriminate]. simpl in Hs. subst rest. exact Hj.
Qed.

End StringFacts.

Module ChunkerExtras.

Import Chunker ChunkerFacts.
Local Open Scope string_scope.

(** X24: joining the pieces of [text.split(separator)] with the separator
    gives the text back. *)
Theorem split_then_join :
  forall text separator paragraphs,
    PyStr.split text separator = Ok paragraphs ->
    PyStr.join separator paragraphs = text.
Proof.
  intros text sep paragraphs H. now apply StringFacts.split_join.
Qed.

Lemma split_then_join_witness :
  PyStr.join ", " ["a"; "b"; ""; "c"] = "a, b, , c".
Proof.
  apply (@split_then_join "a, b, , c" ", " ["a"; "b"; ""; "c"]).
  reflexivity.
Defined.

Lemma total_size_nonneg ps : (0 <= total_size ps)%Z.
Proof.
  induction ps as [|p ps IH]; simpl; [lia|].
  pose proof (str_len_nonneg p). lia.
Qed.

Lemma total_size_join sep ps :
  (total_size ps <= PyStr.str_len (PyStr.join sep ps))%Z.
Proof.
  induction ps as [|p [|q ps] IH].
  - simpl. unfold PyStr.str_len. simpl. lia.
  - simpl. lia.
  - rewrite StringFacts.join_cons. change (total_size (p :: q :: ps))
      with (PyStr.str_len p + total_size (q :: ps))%Z.
    unfold PyStr.str_len in *. rewrite !StringFacts.length_append. lia.
Qed.

(** While the paragraphs fit, the loop only collects them. *)
Lemma chunk_text_collects chunk_size overlap sep ps :
  forall st,
    chunks st = [] ->
    (current_size st + total_size ps <= chunk_size)%Z ->
    fold_left (chunk_text_step chunk_size overlap sep) ps st =
    mkChunkState [] (current_chunk st ++ ps) (current_size st + total_size ps).
Proof.
  induction ps as [|p ps IH]; intros [cs cur size] Hc Hfit; simpl in *.
  - subst cs. now rewrite app_nil_r, Z.add_0_r.
  - pose proof (str_len_nonneg p). pose proof (total_size_nonneg ps).
    unfold chunk_text_step at 2. cbn [chunks current_chunk current_size].
    assert (E : (size + PyStr.str_len p >? chunk_size)%Z = false)
      by (rewrite Z.gtb_ltb; apply Z.ltb_ge; lia).
    rewrite E. cbn [andb chunks current_chunk current_size].
    rewrite IH; cbn [chunks current_chunk current_size]; [|exact Hc | lia].
    now rewrite <- app_assoc, Z.add_assoc.
Qed.

(** X25: a text that is not longer than [chunk_size] is returned whole, as
    the only chunk. *)
Theorem chunk_text_short_text_is_one_chunk :
  forall text chunk_size overlap separator,
    separator <> "" ->
    (PyStr.str_len text <= chunk_size)%Z ->
    chunk_text text chunk_size overlap separator = Ok [text].
Proof.
  intros text chunk_size overlap sep Hsep Hfit. unfold chunk_text.
  destruct (split_returns text Hsep) as [ps Hps]. rewrite Hps. cbn [bind].
  pose proof (StringFacts.split_join _ _ Hps) as Hjoin.
  pose proof (total_size_join sep ps) as Htotal. rewrite Hjoin in Htotal.
  rewrite chunk_text_collects; cbn [chunks current_chunk current_size];
    [|reflexivity | lia].
  simpl app. destruct ps as [|p ps].
  - unfold PyStr.split in Hps. destruct sep; [discriminate|].
    injection Hps as Hps.
    destruct (StringFacts.split_scan_cons (String a sep) text 0 "")
      as (x & l & E).
    congruence.
  - cbn [nonempty app]. now rewrite Hjoin.
Qed.

Lemma chunk_text_short_text_is_one_chunk_witness :
  chunk_text ("first line" ++ newline ++ "second line") 500 50 newline =
  Ok ["first line" ++ newline ++ "second line"].
Proof.
  apply chunk_text_short_text_is_one_chunk;
    [discriminate | unfold PyStr.str_len; simpl; lia].
Defined.

Lemma last_only_In {A : Type} (l : list A) x : In x (last_only l) -> In x l.
Proof.
  unfold last_only. destruct (rev l) as [|y r] eqn:E; simpl; [tauto|].
  intros [<-|[]]. apply in_rev. rewrite E. now left.
Qed.

(** One pass keeps every paragraph seen so far either in the chunk in hand
    or in an emitted chunk; [groups] are the paragraph lists of the emitted
    chunks. *)
Lemma chunk_text_step_groups chunk_size overlap sep st para groups :
  chunks st = map (PyStr.join sep) groups ->
  exists groups',
    chunks (chunk_text_step chunk_size overlap sep st para) =
    map (PyStr.join sep) groups' /\
    In para (current_chunk (chunk_text_step chunk_size overlap sep st para)) /\
    forall p,
      In p (current_chunk st) \/ (exists g, In g groups /\ In p g) ->
      In p (current_chunk (chunk_text_step chunk_size overlap sep st para)) \/
      (exists g, In g groups' /\ In p g).
Proof.
  intros Hc. unfold chunk_text_step.
  destruct ((current_size st + PyStr.str_len para >? chunk_size)%Z
            && nonempty (current_chunk st)).
  - exists (groups ++ [current_chunk st])%list.
    assert (Hcover : forall p,
               In p (current_chunk st) \/ (exists g, In g groups /\ In p g) ->
               exists g, In g (groups ++ [current_chunk st])%list /\ In p g).
    { intros p [Hp|(g & Hg & Hp)].
      - exists (current_chunk st). split; [|exact Hp].
        apply in_or_app. right. now left.
      - exists g. split; [|exact Hp]. apply in_or_app. now left. }
    destruct (PyStr.str_len (PyStr.join sep (current_chunk st)) >? overlap)%Z;
      cbn [chunks current_chunk]; rewrite Hc, map_app; simpl map;
      (split; [reflexivity|]);
      (split; [apply in_or_app; right; now left|]);
      intros p Hp; right; now apply Hcover.
  - exists groups. cbn [chunks current_chunk]. split; [exact Hc|].
    split; [apply in_or_app; right; now left|].
    intros p [Hp|Hp]; [left; apply in_or_app; now left | now right].
Qed.

Lemma chunk_text_fold_groups chunk_size overlap sep ps :
  forall st groups,
    chunks st = map (PyStr.join sep) groups ->
    exists groups',
      chunks (fold_left (chunk_text_step chunk_size overlap sep) ps st) =
      map (PyStr.join sep) groups' /\
      (ps <> [] ->
       current_chunk (fold_left (chunk_text_step chunk_size overlap sep) ps st)
       <> []) /\
      forall p,
        In p ps \/ In p (current_chunk st) \/
        (exists g, In g groups /\ In p g) ->
        In p (current_chunk
                (fold_left (chunk_text_step chunk_size overlap sep) ps st)) \/
        (exists g, In g groups' /\ In p g).
Proof.
  induction ps as [|para ps IH]; intros st groups Hc.
  - exists groups. simpl. split; [exact Hc|]. split; [congruence|].
    intros p [[]|[Hp|Hp]]; auto.
  - destruct (chunk_text_step_groups chunk_size overlap sep st para groups Hc)
      as (groups1 & Hc1 & Hpara & Hcover1).
    destruct (IH _ _ Hc1) as (groups2 & Hc2 & Hne & Hcover2).
    exists groups2. cbn [fold_left]. split; [exact Hc2|]. split.
    + intros _. destruct ps as [|q ps]; [|apply Hne; discriminate].
      cbn [fold_left]. intros E. rewrite E in Hpara. destruct Hpara.
    + intros p [[<-|Hp]|Hp]; apply Hcover2; auto.
Qed.

(** X26: [chunk_text] loses no paragraph.  Every chunk it returns is a run
    of paragraphs joined by the separator, and every paragraph of the text
    is among the paragraphs of some chunk. *)
Theorem chunk_text_covers_every_paragraph :
  forall text chunk_size overlap separator paragraphs result,
    PyStr.split text separator = Ok paragraphs ->
    chunk_text text chunk_size overlap separator = Ok result ->
    exists groups,
      result = map (PyStr.join separator) groups /\
      forall p, In p paragraphs -> exists g, In g groups /\ In p g.
Proof.
  intros text chunk_size overlap sep ps result Hps H. unfold chunk_text in H.
  rewrite Hps in H. cbn [bind] in H. injection H as <-.
  destruct (chunk_text_fold_groups chunk_size overlap sep ps
              (mkChunkState [] [] 0) [] eq_refl)
    as (groups & Hc & _ & Hcover).
  set (st := fold_left (chunk_text_step chunk_size overlap sep) ps
               (mkChunkState [] [] 0)) in *.
  destruct (current_chunk st) as [|c cur] eqn:Ecur; cbn [nonempty].
  - exists groups. split; [exact Hc|].
    intros p Hp. destruct (Hcover p (or_introl Hp)) as [[]|Hg]. exact Hg.
  - exists (groups ++ [c :: cur])%list. split; [now rewrite Hc, map_app|].
    intros p Hp. destruct (Hcover p (or_introl Hp)) as [Hin|(g & Hg & Hin)].
    + exists (c :: cur). split; [apply in_or_app; right; now left | exact Hin].
    + exists g. split; [apply in_or_app; now left | exact Hin].
Qed.

Lemma chunk_text_covers_every_paragraph_witness :
  exists groups,
    ["a"; "a" ++ newline ++ "b"; "b" ++ newline ++ "c"] =
    map (PyStr.join newline) groups /\
    forall p, In p ["a"; "b"; "c"] -> exists g, In g groups /\ In p g.
Proof.
  apply (@chunk_text_covers_every_paragraph
           ("a" ++ newline ++ "b" ++ newline ++ "c") 1 0 newline);
    reflexivity.
Defined.

(** X27: [chunk_text] raises [ValueError] for the empty separator and for
    nothing else, and what it returns is never the empty list: the empty
    text too gives one chunk. *)
Theorem chunk_text_raises_or_returns_chunks :
  forall text chunk_size overlap separator,
    (separator = "" ->
     chunk_text text chunk_size overlap separator = Raise ValueError) /\
    (separator <> "" ->
     exists chunk rest,
       chunk_text text chunk_size overlap separator = Ok (rest ++ [chunk])%list).
Proof.
  intros text chunk_size overlap sep. split; [now intros ->|].
  intros Hsep. unfold chunk_text.
  destruct (split_returns text Hsep) as [ps Hps]. rewrite Hps. cbn [bind].
  destruct (chunk_text_fold_groups chunk_size overlap sep ps
              (mkChunkState [] [] 0) [] eq_refl)
    as (groups & _ & Hne & _).
  assert (Hps' : ps <> []).
  { unfold PyStr.split in Hps. destruct sep; [congruence|].
    injection Hps as <-.
    destruct (StringFacts.split_scan_cons (String a sep) text 0 "")
      as (x & l & ->).
    discriminate. }
  specialize (Hne Hps').
  destruct (current_chunk _) as [|c cur]; [congruence|].
  cbn [nonempty]. eauto.
Qed.

Lemma chunk_text_raises_or_returns_chunks_witness :
  chunk_text "a b" 500 50 "" = Raise ValueError /\
  exists chunk rest, chunk_text "" 500 50 newline = Ok (rest ++ [chunk])%list.
Proof.
  split.
  - now apply (proj1 (@chunk_text_raises_or_returns_chunks "a b" 500 50 "")).
  - apply (proj2 (@chunk_text_raises_or_returns_chunks "" 500 50 newline)).
    discriminate.
Defined.

(** *** The chunks of [chunk_by_tokens] *)

Lemma lstrip_clean s : PyStr.starts_clean (PyStr.lstrip s).
Proof.
  induction s as [|c s IH]; simpl; [exact I|].
  destruct (PyStr.is_space c) eqn:E; [exact IH | exact E].
Qed.

Lemma lstrip_fixed s : PyStr.starts_clean s -> PyStr.lstrip s = s.
Proof. destruct s as [|c s]; simpl; [reflexivity | now intros ->]. Qed.

Lemma rstrip_idempotent s : PyStr.rstrip (PyStr.rstrip s) = PyStr.rstrip s.
Proof.
  induction s as [|c s IH]; [reflexivity|]. cbn [PyStr.rstrip].
  destruct (PyStr.rstrip s) as [|d r] eqn:Er.
  - destruct (PyStr.is_space c) eqn:Ec; [reflexivity|].
    cbn [PyStr.rstrip]. now rewrite Ec.
  - cbn [PyStr.rstrip]. cbn [PyStr.rstrip] in IH.
    destruct (match PyStr.rstrip r with
              | "" => if PyStr.is_space d then "" else String d ""
              | String a s0 => String d (String a s0)
              end) eqn:Ed; [discriminate | now rewrite IH].
Qed.

Lemma rstrip_clean s :
  PyStr.starts_clean s -> PyStr.starts_clean (PyStr.rstrip s).
Proof.
  destruct s as [|c s]; [easy|]. cbn [PyStr.rstrip PyStr.starts_clean]. intros Hc.
  destruct (PyStr.rstrip s); [now rewrite Hc | exact Hc].
Qed.

Lemma strip_idempotent s : PyStr.strip (PyStr.strip s) = PyStr.strip s.
Proof.
  unfold PyStr.strip.
  rewrite (lstrip_fixed (PyStr.rstrip (PyStr.lstrip s))).
  - apply rstrip_idempotent.
  - apply rstrip_clean, lstrip_clean.
Qed.

Lemma length_lstrip s :
  (String.length (PyStr.lstrip s) <= String.length s)%nat.
Proof.
  induction s as [|c s IH]; simpl; [lia|].
  destruct (PyStr.is_space c); simpl; lia.
Qed.

Lemma length_rstrip s :
  (String.length (PyStr.rstrip s) <= String.length s)%nat.
Proof.
  induction s as [|c s IH]; [simpl; lia|]. cbn [PyStr.rstrip].
  destruct (PyStr.rstrip s) as [|d r].
  - destruct (PyStr.is_space c); simpl; lia.
  - simpl in *. lia.
Qed.

Lemma str_len_strip s : (PyStr.str_len (PyStr.strip s) <= PyStr.str_len s)%Z.
Proof.
  unfold PyStr.str_len, PyStr.strip.
  pose proof (length_rstrip (PyStr.lstrip s)). pose proof (length_lstrip s).
  lia.
Qed.

Lemma length_substring s :
  forall a m, (String.length (String.substring a m s) <= m)%nat.
Proof.
  induction s as [|c s IH]; intros [|a] [|m]; simpl; try lia.
  - specialize (IH 0%nat m). lia.
  - apply (IH a 0%nat).
  - apply (IH a (S m)).
Qed.

Lemma str_len_slice s start stop :
  (PyStr.str_len (PyStr.slice s start stop) <=
   Z.max 0 (PyStr.clamp (PyStr.str_len s) stop -
            PyStr.clamp (PyStr.str_len s) start))%Z.
Proof.
  unfold PyStr.slice.
  destruct (PyStr.clamp (PyStr.str_len s) start <?
            PyStr.clamp (PyStr.str_len s) stop)%Z eqn:E.
  - apply Z.ltb_lt in E. unfold PyStr.str_len at 1.
    pose proof (length_substring s
                  (Z.to_nat (PyStr.clamp (PyStr.str_len s) start))
                  (Z.to_nat (PyStr.clamp (PyStr.str_len s) stop -
                             PyStr.clamp (PyStr.str_len s) start))).
    lia.
  - unfold PyStr.str_len at 1. simpl. lia.
Qed.

Lemma rfind_from_bounds sub s lo count i :
  PyStr.rfind_from sub s lo count = Some i -> (lo <= i < lo + count)%nat.
Proof.
  induction count as [|k IH]; simpl; [discriminate|].
  destruct (PyStr.starts_with sub _).
  - intros [= <-]. lia.
  - intros H. apply IH in H. lia.
Qed.

(** [rfind] returns [-1] or a place at which the boundary lies inside the
    window. *)
Lemma rfind_bounds s sub start stop :
  let n := PyStr.str_len s in
  let r := PyStr.rfind s sub start stop in
  (r = -1 \/
   (PyStr.clamp n start <= r /\ r + PyStr.str_len sub <= PyStr.clamp n stop))%Z.
Proof.
  cbv zeta. unfold PyStr.rfind.
  pose proof (str_len_nonneg s) as Hn.
  set (n := PyStr.str_len s) in *.
  set (a := PyStr.clamp n start). set (b := PyStr.clamp n stop).
  assert (Ha : (0 <= a)%Z).
  { unfold a, PyStr.clamp. destruct (start <? 0)%Z eqn:E; [lia|].
    apply Z.ltb_ge in E. lia. }
  destruct (b - a <? PyStr.str_len sub)%Z eqn:E; [now left|].
  apply Z.ltb_ge in E.
  destruct (PyStr.rfind_from sub s (Z.to_nat a)
              (Z.to_nat (b - PyStr.str_len sub - a + 1))) as [i|] eqn:Ei;
    [|now left].
  apply rfind_from_bounds in Ei. right. lia.
Qed.

Lemma clamp_cases n i :
  ((i < 0 /\ PyStr.clamp n i = Z.max 0 (n + i)) \/
   (0 <= i /\ PyStr.clamp n i = Z.min i n))%Z.
Proof.
  unfold PyStr.clamp. destruct (i <? 0)%Z eqn:E.
  - apply Z.ltb_lt in E. now left.
  - apply Z.ltb_ge in E. now right.
Qed.

Lemma break_at_cases text start stop bs :
  break_at text start stop bs = stop \/
  exists b,
    In b bs /\ (start < PyStr.rfind text b start stop)%Z /\
    break_at text start stop bs =
    (PyStr.rfind text b start stop + PyStr.str_len b)%Z.
Proof.
  induction bs as [|b bs IH]; simpl; [now left|].
  destruct (PyStr.rfind text b start stop >? start)%Z eqn:E.
  - right. exists b. apply Z.gtb_lt in E. auto.
  - destruct IH as [IH|(b' & Hin & Hlt & IH)]; [now left|].
    right. exists b'. auto.
Qed.

(** No window is longer than the window size. *)
Lemma window_length text chunk_size overlap start :
  (1 <= chunk_size)%Z ->
  (PyStr.str_len (fst (window text chunk_size overlap start)) <= chunk_size)%Z.
Proof.
  intros Hcs. unfold window. cbn [fst].
  set (n := PyStr.str_len text).
  pose proof (str_len_nonneg text) as Hn. fold n in Hn.
  set (stop := if (start + chunk_size <? n)%Z
               then break_at text start (start + chunk_size) boundaries
               else (start + chunk_size)%Z).
  pose proof (str_len_strip (PyStr.slice text start stop)) as Hstrip.
  pose proof (str_len_slice text start stop) as Hslice. fold n in Hslice.
  assert (Hdiff : (PyStr.clamp n stop - PyStr.clamp n start <= chunk_size)%Z);
    [|lia].
  assert (Hplain : (PyStr.clamp n (start + chunk_size) - PyStr.clamp n start
                    <= chunk_size)%Z).
  { destruct (clamp_cases n start) as [[? ->]|[? ->]];
      destruct (clamp_cases n (start + chunk_size)) as [[? ->]|[? ->]]; lia. }
  unfold stop. destruct (start + chunk_size <? n)%Z; [|exact Hplain].
  destruct (break_at_cases text start (start + chunk_size) boundaries)
    as [->|(b & Hb & Hlt & ->)]; [exact Hplain|].
  assert (Hm : (1 <= PyStr.str_len b <= 2)%Z).
  { unfold boundaries in Hb. simpl in Hb.
    destruct Hb as [<-|[<-|[<-|[<-|[]]]]]; unfold PyStr.str_len; simpl; lia. }
  pose proof (rfind_bounds text b start (start + chunk_size)) as Hr.
  cbv zeta in Hr. fold n in Hr.
  set (r := PyStr.rfind text b start (start + chunk_size)) in *.
  destruct (clamp_cases n start) as [[? Ea]|[? Ea]];
    destruct (clamp_cases n (start + chunk_size)) as [[? Eb]|[? Eb]];
    destruct (clamp_cases n (r + PyStr.str_len b)) as [[? Ec]|[? Ec]];
    rewrite ?Ea, ?Eb, ?Ec in *; lia.
Qed.

Lemma chunk_loop_chunks (P : string -> Prop) text chunk_size overlap :
  (forall start, P (fst (window text chunk_size overlap start))) ->
  forall fuel start acc result,
    Forall P acc ->
    chunk_loop fuel text chunk_size overlap start acc = Some result ->
    Forall P result.
Proof.
  intros Hw. induction fuel as [|fuel IH]; intros start acc result Hacc H;
    cbn [chunk_loop] in H;
    destruct (start <? PyStr.str_len text)%Z; try discriminate;
    try (now injection H as <-).
  specialize (Hw start).
  destruct (window text chunk_size overlap start) as [chunk next].
  apply (IH next (acc ++ [chunk])%list result); [|exact H].
  apply Forall_app. split; [exact Hacc | now repeat constructor].
Qed.

(** X28: every chunk [chunk_by_tokens] returns is non-empty, has no
    whitespace at either end, and, for [max_tokens > 0], has at most
    [4 * max_tokens] characters. *)
Theorem chunk_by_tokens_chunks_are_trimmed_and_bounded :
  forall fuel text max_tokens overlap_tokens result,
    (0 < max_tokens)%Z ->
    chunk_by_tokens fuel text max_tokens overlap_tokens = Some result ->
    Forall (fun chunk => chunk <> "" /\
                         PyStr.strip chunk = chunk /\
                         (PyStr.str_len chunk <= 4 * max_tokens)%Z) result.
Proof.
  intros fuel text max_tokens overlap_tokens result Hm H.
  unfold chunk_by_tokens in H.
  destruct (chunk_loop fuel text (max_tokens * 4) (overlap_tokens * 4) 0 [])
    as [l|] eqn:El; [|discriminate].
  injection H as <-.
  assert (Hall : Forall (fun chunk => PyStr.strip chunk = chunk /\
                                      (PyStr.str_len chunk <= 4 * max_tokens)%Z) l).
  { apply (@chunk_loop_chunks _ text (max_tokens * 4)%Z (overlap_tokens * 4)%Z)
      with (fuel := fuel) (start := 0%Z) (acc := @nil string);
      [|constructor | exact El].
    intros start. split.
    - unfold window. cbn [fst]. apply strip_idempotent.
    - pose proof (@window_length text (max_tokens * 4)%Z (overlap_tokens * 4)%Z
                    start ltac:(lia)).
      lia. }
  apply Forall_forall. intros chunk [Hin Ht]%filter_In.
  pose proof (proj1 (Forall_forall _ _) Hall chunk Hin) as [Hs Hl].
  repeat split; auto. now destruct chunk.
Qed.

Lemma chunk_by_tokens_chunks_are_trimmed_and_bounded_witness :
  Forall (fun chunk => chunk <> "" /\
                       PyStr.strip chunk = chunk /\
                       (PyStr.str_len chunk <= 4 * 3)%Z)
    ["Hello."; "World!"; "How are you?"; "fine"].
Proof.
  apply (@chunk_by_tokens_chunks_are_trimmed_and_bounded 10
           "Hello. World! How are you? fine" 3 0).
  - lia.
  - reflexivity.
Defined.

Lemma chunk_loop_more_fuel text chunk_size overlap :
  forall fuel start acc result,
    chunk_loop fuel text chunk_size overlap start acc = Some result ->
    forall fuel', (fuel <= fuel')%nat ->
      chunk_loop fuel' text chunk_size overlap start acc = Some result.
Proof.
  induction fuel as [|fuel IH]; intros start acc result H [|fuel'] Hle;
    cbn [chunk_loop] in *;
    destruct (start <? PyStr.str_len text)%Z; try discriminate; try exact H;
    try lia.
  destruct (window text chunk_size overlap start) as [chunk next].
  apply (IH _ _ _ H). lia.
Qed.

(** X29: without overlap [chunk_by_tokens] comes to an end.  For
    [max_tokens > 0] and [overlap_tokens = 0] the loop exits after at most
    as many passes as the text has characters, and more passes allowed do
    not change what it returns. *)
Theorem chunk_by_tokens_without_overlap_returns :
  forall text max_tokens,
    (0 < max_tokens)%Z ->
    exists result,
      forall fuel, (String.length text <= fuel)%nat ->
        chunk_by_tokens fuel text max_tokens 0 = Some result.
Proof.
  intros text max_tokens Hm.
  destruct (@chunk_loop_exits text (max_tokens * 4)%Z ltac:(lia)
              (String.length text) 0%Z [])
    as [l Hl]; [unfold PyStr.str_len; lia|].
  exists (filter PyStr.truthy l). intros fuel Hfuel. unfold chunk_by_tokens.
  change (0 * 4)%Z with 0%Z.
  now rewrite (@chunk_loop_more_fuel _ _ _ _ _ _ _ Hl fuel Hfuel).
Qed.

Lemma chunk_by_tokens_without_overlap_returns_witness :
  exists result,
    forall fuel, (String.length "Hello. World! How are you? fine" <= fuel)%nat ->
      chunk_by_tokens fuel "Hello. World! How are you? fine" 3 0 = Some result.
Proof.
  apply chunk_by_tokens_without_overlap_returns. lia.
Defined.

(** *** What the chunks hold when there is no overlap *)

Lemma visible_append s t :
  PyStr.visible (s ++ t) = (PyStr.visible s ++ PyStr.visible t)%list.
Proof.
  unfold PyStr.visible. induction s as [|c s IH]; simpl; [reflexivity|].
  destruct (negb (PyStr.is_space c)); simpl; now rewrite IH.
Qed.

Lemma visible_lstrip s : PyStr.visible (PyStr.lstrip s) = PyStr.visible s.
Proof.
  unfold PyStr.visible. induction s as [|c s IH]; simpl; [reflexivity|].
  destruct (PyStr.is_space c) eqn:E; simpl; [exact IH | now rewrite E].
Qed.

Lemma visible_rstrip s : PyStr.visible (PyStr.rstrip s) = PyStr.visible s.
Proof.
  unfold PyStr.visible. induction s as [|c s IH]; [reflexivity|].
  cbn [PyStr.rstrip].
  destruct (PyStr.rstrip s) as [|d r] eqn:Er.
  - simpl in IH.
    destruct (PyStr.is_space c) eqn:E; simpl; rewrite E; simpl;
      now rewrite <- IH.
  - change (list_ascii_of_string (String c (String d r)))
      with (c :: list_ascii_of_string (String d r)).
    change (list_ascii_of_string (String c s))
      with (c :: list_ascii_of_string s).
    cbn [filter]. now rewrite IH.
Qed.

Lemma visible_strip s : PyStr.visible (PyStr.strip s) = PyStr.visible s.
Proof. unfold PyStr.strip. now rewrite visible_rstrip, visible_lstrip. Qed.

Lemma substring_empty n m : String.substring n m "" = "".
Proof. now destruct n, m. Qed.

Lemma substring_split s :
  forall n m1 m2,
    String.substring n (m1 + m2) s =
    String.substring n m1 s ++ String.substring (n + m1) m2 s.
Proof.
  induction s as [|c s IH]; intros n m1 m2.
  - now rewrite !substring_empty.
  - destruct n as [|n].
    + destruct m1 as [|m1]; [reflexivity|].
      cbn [Nat.add String.substring append]. f_equal. apply (IH 0%nat).
    + cbn [Nat.add String.substring]. apply IH.
Qed.

Lemma substring_whole s : String.substring 0 (String.length s) s = s.
Proof. induction s as [|c s IH]; simpl; [reflexivity | now rewrite IH]. Qed.

Lemma slice_whole s : PyStr.slice s 0 (PyStr.str_len s) = s.
Proof.
  unfold PyStr.slice.
  pose proof (str_len_nonneg s) as Hn.
  destruct (clamp_cases (PyStr.str_len s) 0) as [[? Ea]|[_ Ea]]; [lia|].
  destruct (clamp_cases (PyStr.str_len s) (PyStr.str_len s))
    as [[? En]|[_ En]]; [lia|].
  rewrite Ea, En, Z.min_id.
  replace (Z.min 0 (PyStr.str_len s)) with 0%Z by lia.
  destruct (0 <? PyStr.str_len s)%Z eqn:E.
  - rewrite Z.sub_0_r. unfold PyStr.str_len. rewrite Nat2Z.id.
    apply substring_whole.
  - apply Z.ltb_ge in E. unfold PyStr.str_len in E.
    destruct s; [reflexivity | simpl in E; lia].
Qed.

(** A slice from [a] to the end is the slice up to [b] and the slice from
    [b] on. *)
Lemma slice_split s a b :
  (0 <= a <= b)%Z ->
  PyStr.slice s a (PyStr.str_len s) =
  PyStr.slice s a b ++ PyStr.slice s b (PyStr.str_len s).
Proof.
  intros Hab. unfold PyStr.slice.
  pose proof (str_len_nonneg s) as Hn. set (n := PyStr.str_len s) in *.
  destruct (clamp_cases n a) as [[? Ea]|[_ Ea]]; [lia|].
  destruct (clamp_cases n b) as [[? Eb]|[_ Eb]]; [lia|].
  destruct (clamp_cases n n) as [[? En]|[_ En]]; [lia|].
  rewrite Ea, Eb, En, Z.min_id.
  destruct (Z.min a n <? Z.min b n)%Z eqn:E1;
    destruct (Z.min b n <? n)%Z eqn:E2;
    destruct (Z.min a n <? n)%Z eqn:E3;
    try apply Z.ltb_lt in E1; try apply Z.ltb_ge in E1;
    try apply Z.ltb_lt in E2; try apply Z.ltb_ge in E2;
    try apply Z.ltb_lt in E3; try apply Z.ltb_ge in E3; try lia.
  - replace (Z.to_nat (n - Z.min a n))
      with (Z.to_nat (Z.min b n - Z.min a n) + Z.to_nat (n - Z.min b n))%nat
      by lia.
    rewrite substring_split. do 2 f_equal. lia.
  - replace (Z.min b n) with n by lia.
    now rewrite StringFacts.append_nil_r.
  - replace (Z.min b n) with (Z.min a n) by lia. reflexivity.
  - reflexivity.
Qed.

Lemma slice_past_end s a :
  (PyStr.str_len s <= a)%Z -> PyStr.slice s a (PyStr.str_len s) = "".
Proof.
  intros Ha. unfold PyStr.slice.
  pose proof (str_len_nonneg s) as Hn. set (n := PyStr.str_len s) in *.
  destruct (clamp_cases n a) as [[? Ea]|[_ Ea]]; [lia|].
  destruct (clamp_cases n n) as [[? En]|[_ En]]; [lia|].
  rewrite Ea, En.
  replace (Z.min a n <? Z.min n n)%Z with false; [reflexivity|].
  symmetry. apply Z.ltb_ge. lia.
Qed.

Lemma visible_chunks_app l1 l2 :
  List.concat (map PyStr.visible (l1 ++ l2)%list) =
  (List.concat (map PyStr.visible l1) ++ List.concat (map PyStr.visible l2))%list.
Proof. now rewrite map_app, concat_app. Qed.

Lemma visible_truthy l :
  List.concat (map PyStr.visible (filter PyStr.truthy l)) =
  List.concat (map PyStr.visible l).
Proof.
  induction l as [|c l IH]; simpl; [reflexivity|].
  destruct c; simpl; now rewrite IH.
Qed.

(** Without overlap the windows follow one another: what the loop returns
    holds what it had, then the visible characters of the text from [start]
    on. *)
Lemma chunk_loop_visible text chunk_size :
  (0 < chunk_size)%Z ->
  forall fuel start acc result,
    (0 <= start)%Z ->
    chunk_loop fuel text chunk_size 0 start acc = Some result ->
    List.concat (map PyStr.visible result) =
    (List.concat (map PyStr.visible acc) ++
     PyStr.visible (PyStr.slice text start (PyStr.str_len text)))%list.
Proof.
  intros Hcs. induction fuel as [|fuel IH]; intros start acc result Hs H;
    cbn [chunk_loop] in H;
    destruct (start <? PyStr.str_len text)%Z eqn:E; try discriminate;
    try (apply Z.ltb_ge in E; injection H as <-;
         rewrite slice_past_end by exact E;
         now rewrite app_nil_r).
  pose proof (@window_advances text chunk_size start Hcs) as Hw.
  unfold window in *.
  set (stop := if (start + chunk_size <? PyStr.str_len text)%Z
               then break_at text start (start + chunk_size) boundaries
               else (start + chunk_size)%Z) in *.
  cbn [snd] in Hw. rewrite Z.sub_0_r in *.
  apply IH in H; [|lia].
  rewrite H, visible_chunks_app. simpl map. simpl List.concat.
  rewrite app_nil_r, visible_strip, <- app_assoc. f_equal.
  rewrite <- visible_append. f_equal.
  symmetry. apply slice_split. lia.
Qed.

(** X30: without overlap nothing is lost and nothing is said twice.  For
    [max_tokens > 0] and [overlap_tokens = 0] the chunks, read one after the
    other, hold exactly the characters of the text that are not whitespace,
    in the order of the text. *)
Theorem chunk_by_tokens_without_overlap_keeps_the_text :
  forall fuel text max_tokens result,
    (0 < max_tokens)%Z ->
    chunk_by_tokens fuel text max_tokens 0 = Some result ->
    List.concat (map PyStr.visible result) = PyStr.visible text.
Proof.
  intros fuel text max_tokens result Hm H. unfold chunk_by_tokens in H.
  change (0 * 4)%Z with 0%Z in H.
  destruct (chunk_loop fuel text (max_tokens * 4) 0 0 []) as [l|] eqn:El;
    [|discriminate].
  injection H as <-. rewrite visible_truthy.
  rewrite (@chunk_loop_visible text (max_tokens * 4)%Z ltac:(lia)
             fuel 0%Z [] l ltac:(lia) El).
  simpl. now rewrite slice_whole.
Qed.

Lemma chunk_by_tokens_without_overlap_keeps_the_text_witness :
  List.concat (map PyStr.visible ["Hello."; "World!"; "How are you?"; "fine"]) =
  PyStr.visible "Hello. World! How are you? fine".
Proof.
  apply (@chunk_by_tokens_without_overlap_keeps_the_text 10
           "Hello. World! How are you? fine" 3).
  - lia.
  - reflexivity.
Defined.

End ChunkerExtras.
